(** * An in-memory vector store: sorted entries, binary search, top-K query

    A shallow embedding of the vector database of the Tool-Selection
    program (types [ID], [Entry], [VectorDB], [QueryResult], [QueryOptions],
    the methods [search], [Upsert], [Get], [Delete], [Query], [querySlice] and
    the two [DistanceMetric] implementations), followed by the properties of
    the store and of the query engine.

    Conventions of the embedding.
    - A Go slice is a [list]; indices and lengths are [nat], the option
      field [TopK] (a Go [int] that may be negative) is a [Z].
    - A Go [float32] is an IEEE-754 binary32 value, a [spec_float] used at
      precision 24 and maximal exponent 128; a [float64] is a [spec_float]
      at precision 53 and maximal exponent 1024. Comparisons are the IEEE
      ones: every comparison with a NaN is false.
    - A run-time panic (index or slice bound out of range, [make] with a
      capacity that is negative or too large) is the result [None]; a
      function that can panic returns an [option]. Exhaustion of memory is
      outside the model.
    - The reader/writer lock and the goroutine of [querySlice] are not
      modelled: each method is its sequential body, and the fork-join of
      [querySlice] is the evaluation of both halves followed by the merge. *)

From Stdlib Require Import ZArith List String Ascii Bool Lia.
From Stdlib Require Import Sorting.Sorted Sorting.Permutation.
From Stdlib Require Import Structures.OrderedTypeEx.
From Stdlib Require Import Floats.SpecFloat.
From stdpp Require Import base tactics option list sorting.

Local Open Scope nat_scope.

(** ** Floating-point numbers *)

Module F32.
Definition prec : Z := 24.
Definition emax : Z := 128.
Definition add : spec_float -> spec_float -> spec_float := SFadd prec emax.
Definition mul : spec_float -> spec_float -> spec_float := SFmul prec emax.
(** [x < y], [x > y] and [x >= y] of Go. *)
Definition lt (x y : spec_float) : bool := SFltb x y.
Definition gt (x y : spec_float) : bool := SFltb y x.
Definition ge (x y : spec_float) : bool := SFleb y x.
(** The float32 constant written as the integer [z]. *)
Definition of_Z (z : Z) : spec_float := binary_normalize prec emax z 0 false.
(** The float32 constant [z / 2]. *)
Definition of_halves (z : Z) : spec_float :=
  binary_normalize prec emax z (-1) false.
End F32.

Module F64.
Definition prec : Z := 53.
Definition emax : Z := 1024.
Definition add : spec_float -> spec_float -> spec_float := SFadd prec emax.
Definition mul : spec_float -> spec_float -> spec_float := SFmul prec emax.
Definition div : spec_float -> spec_float -> spec_float := SFdiv prec emax.
Definition sqrt : spec_float -> spec_float := SFsqrt prec emax.
Definition zero : spec_float := S754_zero false.
End F64.

Definition float32 := spec_float.
Definition float64 := spec_float.

Definition is_nan (x : spec_float) : bool :=
  match x with
  | S754_nan => true
  | _ => false
  end.

(** The comparison of two finite numbers of the same sign, by exponent and
    then by mantissa, as [SFcompare] makes it on positive numbers. *)
Definition mag_compare (e1 : Z) (m1 : positive) (e2 : Z) (m2 : positive)
    : comparison :=
  match Z.compare e1 e2 with
  | Lt => Lt
  | Gt => Gt
  | Eq => Pos.compare m1 m2
  end.

(** The conversion [float64(x)] of a float32: exact, the value is kept and
    the mantissa is aligned again for the wider format. *)
Definition float64_of_float32 (x : float32) : float64 :=
  match x with
  | S754_finite s m e =>
      binary_normalize F64.prec F64.emax (cond_Zopp s (Zpos m)) e s
  | _ => x
  end.

(** The conversion [float32(x)] of a float64: rounding to nearest even. *)
Definition float32_of_float64 (x : float64) : float32 :=
  match x with
  | S754_finite s m e =>
      binary_normalize F32.prec F32.emax (cond_Zopp s (Zpos m)) e s
  | _ => x
  end.

(** [math.Pow(x, 2)]. For a finite [x] that comes from a float32 the square
    has at most 48 significant bits, so the library function returns the
    exact square, which is also the float64 product [x * x]; on zeros,
    infinities and NaN both give the same value as well. *)
Definition math_Pow_2 (x : float64) : float64 := F64.mul x x.

(** ** The library functions of package [slices] used by the store *)

(** The loop of [slices.BinarySearchFunc]:
    [for i < j { h := int(uint(i+j) >> 1);
                 if cmp(x[h], target) < 0 { i = h + 1 } else { j = h } }].
    [fuel] bounds the number of iterations; [j - i] iterations are always
    enough since the interval shrinks at each one (lemma
    [bsearch_loop_fuel]). [x[h]] outside the slice is a panic. *)
Fixpoint bsearch_loop {E T : Type} (x : list E) (target : T)
    (cmp : E -> T -> Z) (fuel i j : nat) : option nat :=
  if i <? j then
    match fuel with
    | O => None
    | S fuel' =>
        let h := (i + j) / 2 in
        match x !! h with
        | None => None
        | Some xh =>
            if (cmp xh target <? 0)%Z
            then bsearch_loop x target cmp fuel' (h + 1) j
            else bsearch_loop x target cmp fuel' i h
        end
    end
  else Some i.

(** [slices.BinarySearchFunc(x, target, cmp)]: the position where [target]
    is found, or where it would be inserted, and whether it is found:
    [return i, i < n && cmp(x[i], target) == 0]. *)
Definition BinarySearchFunc {E T : Type} (x : list E) (target : T)
    (cmp : E -> T -> Z) : option (nat * bool) :=
  let n := length x in
  i ← bsearch_loop x target cmp n 0 n;
  Some (i, match x !! i with
           | Some xi => (i <? n) && (cmp xi target =? 0)%Z
           | None => false
           end).

(** The elements that precede the target in the order of the search are
    those [cmp] sends below zero. *)
Definition precedes {E T : Type} (target : T) (cmp : E -> T -> Z) (e : E)
    : bool :=
  (cmp e target <? 0)%Z.

(** [slices.Insert(s, i, v)]: panics when [i > len(s)]. *)
Definition slices_Insert {A : Type} (s : list A) (i : nat) (v : A)
    : option (list A) :=
  if i <=? length s then Some (take i s ++ v :: drop i s) else None.

(** [slices.Delete(s, i, j)]: removes [s[i:j]]; panics unless
    [i <= j <= len(s)]. *)
Definition slices_Delete {A : Type} (s : list A) (i j : nat)
    : option (list A) :=
  if (i <=? j) && (j <=? length s) then Some (take i s ++ drop j s) else None.

(** ** Data model *)

Definition ID := string.

Record Entry (Meta : Type) : Type := mkEntry {
  Entry_ID : ID;
  Metadata : Meta;
  Vector : list float32
}.
Arguments mkEntry {Meta} _ _ _.
Arguments Entry_ID {Meta} _.
Arguments Metadata {Meta} _.
Arguments Vector {Meta} _.

(** The interface [DistanceMetric]: an implementation is its two methods. *)
Record DistanceMetric : Type := mkDistanceMetric {
  Distance : list float32 -> list float32 -> option float32;
  BiggerIsCloser : bool
}.

Record VectorDB (Meta : Type) : Type := mkVectorDB {
  entries : list (Entry Meta);
  distanceMetric : DistanceMetric
}.
Arguments mkVectorDB {Meta} _ _.
Arguments entries {Meta} _.
Arguments distanceMetric {Meta} _.

Record QueryResult (Meta : Type) : Type := mkQueryResult {
  Score : float32;
  Result_Entry : Entry Meta
}.
Arguments mkQueryResult {Meta} _ _.
Arguments Score {Meta} _.
Arguments Result_Entry {Meta} _.

(** [Predicate] is a function value that may be [nil]. *)
Record QueryOptions (Meta : Type) : Type := mkQueryOptions {
  TopK : Z;
  MinimumScore : float32;
  Predicate : option (Entry Meta -> bool)
}.
Arguments mkQueryOptions {Meta} _ _ _.
Arguments TopK {Meta} _.
Arguments MinimumScore {Meta} _.
Arguments Predicate {Meta} _.

(** ** Distance metrics *)

(** [for k := range a { dotProduct += a[k] * b[k] }] of
    [DotProduct.Distance]; [ak] runs over [a[k:]]. *)
Fixpoint DotProduct_loop (b : list float32) (k : nat) (ak : list float32)
    (dotProduct : float32) : option float32 :=
  match ak with
  | [] => Some dotProduct
  | a_k :: ak' =>
      b_k ← b !! k;
      DotProduct_loop b (S k) ak' (F32.add dotProduct (F32.mul a_k b_k))
  end.

Definition DotProduct_Distance (a b : list float32) : option float32 :=
  DotProduct_loop b 0 a (F32.of_Z 0).

Definition DotProduct : DistanceMetric :=
  {| Distance := DotProduct_Distance; BiggerIsCloser := true |}.

(** The loop of [CosineSimilarity.Distance], on its three float64
    accumulators. *)
Fixpoint CosineSimilarity_loop (b : list float32) (k : nat)
    (ak : list float32) (dotProduct magnitudeA magnitudeB : float64)
    : option (float64 * float64 * float64) :=
  match ak with
  | [] => Some (dotProduct, magnitudeA, magnitudeB)
  | a_k :: ak' =>
      b_k ← b !! k;
      CosineSimilarity_loop b (S k) ak'
        (F64.add dotProduct (float64_of_float32 (F32.mul a_k b_k)))
        (F64.add magnitudeA (math_Pow_2 (float64_of_float32 a_k)))
        (F64.add magnitudeB (math_Pow_2 (float64_of_float32 b_k)))
  end.

Definition CosineSimilarity_Distance (a b : list float32) : option float32 :=
  '(dotProduct, magnitudeA, magnitudeB) ←
    CosineSimilarity_loop b 0 a F64.zero F64.zero F64.zero;
  Some (float32_of_float64
          (F64.div dotProduct
             (F64.mul (F64.sqrt magnitudeA) (F64.sqrt magnitudeB)))).

Definition CosineSimilarity : DistanceMetric :=
  {| Distance := CosineSimilarity_Distance; BiggerIsCloser := false |}.

(** ** The allocation of the results *)

(** [make([]T, 0, capacity)] with a capacity that is not a constant is
    [makeslice] of the runtime, which panics when the capacity is negative
    and when the slice would take more than [maxAlloc] bytes, and
    otherwise allocates a slice of that capacity. On a 64-bit platform an
    [int] has 64 bits, [maxAlloc] is 2^48 bytes and a [QueryResult], a
    [float32] and a pointer, takes 16 bytes: a slice of results has a
    capacity of 2^44 at most. A capacity within these bounds for which the
    machine has no memory ends the program with a fatal error of the
    runtime; the memory of the machine is no part of this model. The
    merge of [querySlice] makes its slice with the capacity
    [len(leftResult) + len(rightResult)], at most the number of entries
    of the store: it is in range for every store that fits the memory of
    such a platform, and the model of the merge leaves this allocation
    out. *)
Definition maxAlloc : Z := 2 ^ 48.

Definition QueryResult_size : Z := 16.

Definition makeslice (size capacity : Z) : option nat :=
  if (capacity <? 0)%Z || (maxAlloc <? size * capacity)%Z then None
  else Some (Z.to_nat capacity).

(** ** The entry store *)

Section Store.
Context {Meta : Type}.

Definition NewVectorDB (distanceMetric : DistanceMetric)
    (entries : list (Entry Meta)) : VectorDB Meta :=
  {| entries := entries; distanceMetric := distanceMetric |}.

(** The comparison function given to the binary search by [search]. *)
Definition search_cmp (e : Entry Meta) (searchID : ID) : Z :=
  if String.ltb (Entry_ID e) searchID then (-1)%Z
  else if String.ltb searchID (Entry_ID e) then 1%Z
  else 0%Z.

Definition search (db : VectorDB Meta) (id : ID) : option (nat * bool) :=
  BinarySearchFunc (entries db) id search_cmp.

Definition Upsert (entry : Entry Meta) (db : VectorDB Meta)
    : option (VectorDB Meta) :=
  '(n, ok) ← search db (Entry_ID entry);
  if negb ok then
    es ← slices_Insert (entries db) n entry;
    Some {| entries := es; distanceMetric := distanceMetric db |}
  else
    (* db.entries[n] = entry *)
    if n <? length (entries db) then
      Some {| entries := <[n := entry]> (entries db);
              distanceMetric := distanceMetric db |}
    else None.

(** The result pair is the entry pointer ([None] for [nil]) and the
    found flag. *)
Definition Get (id : ID) (db : VectorDB Meta)
    : option (option (Entry Meta) * bool) :=
  '(n, ok) ← search db id;
  if negb ok then Some (None, false)
  else
    e ← entries db !! n;
    Some (Some e, true).

Definition Delete (id : ID) (db : VectorDB Meta) : option (VectorDB Meta) :=
  '(n, ok) ← search db id;
  if (ok : bool) then
    es ← slices_Delete (entries db) n (n + 1);
    Some {| entries := es; distanceMetric := distanceMetric db |}
  else Some db.

(** A mutation of the store, and a sequence of mutations applied from
    left to right. *)
Inductive Op : Type :=
| OpUpsert (entry : Entry Meta)
| OpDelete (id : ID).

Definition apply_op (op : Op) (db : VectorDB Meta) : option (VectorDB Meta) :=
  match op with
  | OpUpsert entry => Upsert entry db
  | OpDelete id => Delete id db
  end.

Fixpoint run_ops (ops : list Op) (db : VectorDB Meta)
    : option (VectorDB Meta) :=
  match ops with
  | [] => Some db
  | op :: ops' => db' ← apply_op op db; run_ops ops' db'
  end.

(** The store invariant as a test: the identifiers of adjacent entries
    are strictly ascending. *)
Fixpoint sorted_by_ID (es : list (Entry Meta)) : bool :=
  match es with
  | [] => true
  | e1 :: es' =>
      match es' with
      | [] => true
      | e2 :: _ => String.ltb (Entry_ID e1) (Entry_ID e2) && sorted_by_ID es'
      end
  end.

(** The same invariant as a relation between any two entries of the
    slice, the earlier one and the later one. *)
Definition ID_lt (a b : Entry Meta) : Prop :=
  String.ltb (Entry_ID a) (Entry_ID b) = true.

Definition sorted_IDs (es : list (Entry Meta)) : Prop :=
  StronglySorted ID_lt es.

(** The entry that a collection holds for the identifier [id], if any:
    the reference for what [Get] finds. *)
Definition entry_of (id : ID) (es : list (Entry Meta))
    : option (Entry Meta) :=
  List.find (fun e => String.eqb (Entry_ID e) id) es.

(** [op] is an [Upsert] of an entry of identifier [id]. *)
Definition upserts (id : ID) (op : Op) : bool :=
  match op with
  | OpUpsert entry => String.eqb (Entry_ID entry) id
  | OpDelete _ => false
  end.

(** [op] is an [Upsert] or a [Delete] of the identifier [id]. *)
Definition touches (id : ID) (op : Op) : bool :=
  match op with
  | OpUpsert entry => String.eqb (Entry_ID entry) id
  | OpDelete id' => String.eqb id' id
  end.

(** The entry held for [id] after the operations [ops], when [current]
    was held before them: each [Upsert] of [id] writes its entry, each
    [Delete] of [id] erases it. *)
Fixpoint written (id : ID) (ops : list Op) (current : option (Entry Meta))
    : option (Entry Meta) :=
  match ops with
  | [] => current
  | OpUpsert entry :: ops' =>
      written id ops'
        (if String.eqb (Entry_ID entry) id then Some entry else current)
  | OpDelete id' :: ops' =>
      written id ops' (if String.eqb id' id then None else current)
  end.

(** ** The query engine *)

(** The comparison function given to the binary search by the leaf of
    [querySlice]. *)
Definition score_cmp (m : DistanceMetric) (a b : QueryResult Meta) : Z :=
  let n :=
    if F32.lt (Score a) (Score b) then 1%Z
    else if F32.gt (Score a) (Score b) then (-1)%Z
    else 0%Z in
  if BiggerIsCloser m then (- n)%Z else n.

(** The merge loop of [querySlice]:
    [for len(results) < resultCount { switch {...} }]. The first argument
    is [resultCount - len(results)], which each iteration decreases by
    one. Taking the head of an empty slice is a panic. *)
Fixpoint merge_loop (remaining : nat)
    (leftResult rightResult results : list (QueryResult Meta))
    : option (list (QueryResult Meta)) :=
  match remaining with
  | O => Some results
  | S remaining' =>
      match leftResult, rightResult with
      | [], [] => None
      | [], r :: rightResult' =>
          merge_loop remaining' leftResult rightResult' (results ++ [r])
      | l :: leftResult', [] =>
          merge_loop remaining' leftResult' rightResult (results ++ [l])
      | l :: leftResult', r :: rightResult' =>
          if F32.ge (Score l) (Score r)
          then merge_loop remaining' leftResult' rightResult (results ++ [l])
          else merge_loop remaining' leftResult rightResult' (results ++ [r])
      end
  end.

Definition merge (leftResult rightResult : list (QueryResult Meta))
    : option (list (QueryResult Meta)) :=
  let resultCount := length leftResult + length rightResult in
  merge_loop resultCount leftResult rightResult [].

(** One iteration of the sequential loop of [querySlice] on the entry
    [e]. [capacity] is [cap(results)]: the slice is made with capacity
    [TopK] and never holds more than [TopK] results (lemma
    [leaf_loop_length]), so [slices.Insert] never reallocates it and its
    capacity stays the one it was made with. *)
Definition leaf_step (m : DistanceMetric) (vector : list float32)
    (o : QueryOptions Meta) (capacity : nat)
    (results : list (QueryResult Meta)) (e : Entry Meta)
    : option (list (QueryResult Meta)) :=
  if match Predicate o with Some p => negb (p e) | None => false end
  then Some results
  else
    score ← Distance m vector (Vector e);
    if F32.lt score (MinimumScore o) then Some results
    else
      let qr := {| Score := score; Result_Entry := e |} in
      '(n, _) ← BinarySearchFunc results qr (score_cmp m);
      if n =? capacity then Some results
      else
        results' ←
          (if (Z.of_nat (length results) =? TopK o)%Z
           then match length results with
                | O => None (* slices.Delete(results, -1, 0) *)
                | S last => slices_Delete results last (S last)
                end
           else Some results);
        slices_Insert results' n qr.

Fixpoint leaf_loop (m : DistanceMetric) (vector : list float32)
    (o : QueryOptions Meta) (capacity : nat)
    (es : list (Entry Meta)) (results : list (QueryResult Meta))
    : option (list (QueryResult Meta)) :=
  match es with
  | [] => Some results
  | e :: es' =>
      results' ← leaf_step m vector o capacity results e;
      leaf_loop m vector o capacity es' results'
  end.

(** The sequential part of [querySlice]; [make([]QueryResult, 0, o.TopK)]
    panics on a negative capacity and on one that is too large. *)
Definition leaf (m : DistanceMetric) (es : list (Entry Meta))
    (vector : list float32) (o : QueryOptions Meta)
    : option (list (QueryResult Meta)) :=
  capacity ← makeslice QueryResult_size (TopK o);
  leaf_loop m vector o capacity es [].

(** [querySlice] with its constant [threshold] as a parameter. [fuel]
    bounds the depth of the recursion; [length es] is always enough when
    [threshold] is at least one (lemma [querySlice_at_fuel]). With a
    threshold of zero the recursion of the source would not end on a slice
    of one entry, whose second half is the slice itself. *)
Fixpoint querySlice_at (threshold fuel : nat) (m : DistanceMetric)
    (es : list (Entry Meta)) (vector : list float32)
    (o : QueryOptions Meta) : option (list (QueryResult Meta)) :=
  if threshold <? length es then
    match fuel with
    | O => None
    | S fuel' =>
        let half := length es / 2 in
        leftResult ← querySlice_at threshold fuel' m (take half es) vector o;
        rightResult ← querySlice_at threshold fuel' m (drop half es) vector o;
        merge leftResult rightResult
    end
  else leaf m es vector o.

Definition threshold : nat := 100.

Definition querySlice (db : VectorDB Meta) (es : list (Entry Meta))
    (vector : list float32) (o : QueryOptions Meta)
    : option (list (QueryResult Meta)) :=
  querySlice_at threshold (length es) (distanceMetric db) es vector o.

Definition Query (db : VectorDB Meta) (vector : list float32)
    (o : QueryOptions Meta) : option (list (QueryResult Meta)) :=
  querySlice db (entries db) vector o.

(** [Query] as it would be with another value of the constant
    [threshold]. *)
Definition Query_at (t : nat) (db : VectorDB Meta) (vector : list float32)
    (o : QueryOptions Meta) : option (list (QueryResult Meta)) :=
  querySlice_at t (length (entries db)) (distanceMetric db) (entries db)
    vector o.
(** What the sequential loop keeps of one entry before it looks at the
    results gathered so far: the result made of the entry and its score,
    unless the predicate rejects the entry or the score is below the
    minimum. *)
Definition candidate (m : DistanceMetric) (vector : list float32)
    (o : QueryOptions Meta) (e : Entry Meta) : option (QueryResult Meta) :=
  if match Predicate o with Some p => negb (p e) | None => false end
  then None
  else
    score ← Distance m vector (Vector e);
    if F32.lt score (MinimumScore o) then None
    else Some {| Score := score; Result_Entry := e |}.

Definition candidates (m : DistanceMetric) (vector : list float32)
    (o : QueryOptions Meta) (es : list (Entry Meta))
    : list (QueryResult Meta) :=
  omap (candidate m vector o) es.

(** The entries on which the sequential loop calls the metric are those
    the predicate lets through; [scorable] says that none of these calls
    panics. *)
Definition scorable (m : DistanceMetric) (vector : list float32)
    (o : QueryOptions Meta) (e : Entry Meta) : Prop :=
  match Predicate o with Some p => p e = true | None => True end ->
  is_Some (Distance m vector (Vector e)).

(** The order of two results that the comments of [querySlice] announce:
    from the high score to the low score. *)
Definition score_ge (a b : QueryResult Meta) : Prop :=
  F32.ge (Score a) (Score b) = true.

End Store.

(** ** The store seen from its callers *)

Section Callers.
Context {Meta : Type}.

(** [getAllTools]: the number of entries of the store. *)
Definition getAllTools (db : VectorDB Meta) : nat := length (entries db).

(** The identifier that an operation names. *)
Definition op_id (op : @Op Meta) : ID :=
  match op with
  | OpUpsert entry => Entry_ID entry
  | OpDelete id => id
  end.

(** The three tests of [search_cmp] on an entry: its identifier is below
    [id], above [id], or is [id]. *)
Definition below (id : ID) (e : Entry Meta) : bool :=
  String.ltb (Entry_ID e) id.

Definition above (id : ID) (e : Entry Meta) : bool :=
  String.ltb id (Entry_ID e).

Definition bears (id : ID) (e : Entry Meta) : bool :=
  String.eqb (Entry_ID e) id.

(** Every result of [rs] has a score greater than or equal to that of
    every result of [rest]. *)
Definition dominates (rs rest : list (QueryResult Meta)) : Prop :=
  forall r d, r ∈ rs -> d ∈ rest -> score_ge r d.

(** The options [QueryOptions{TopK: 1}] of [calculateSuccessRate]: the
    other fields have their zero values. *)
Definition rank1_options : QueryOptions Meta :=
  {| TopK := 1; MinimumScore := F32.of_Z 0; Predicate := None |}.

(** The inner loop of [calculateSuccessRate], over the prompts of one
    tool. [createEmbeddings] is the call of the embedding service: a
    function of the prompt for the time of the run, which ends the program
    ([None]) when the service fails. *)
Fixpoint calculateSuccessRate_prompts
    (createEmbeddings : string -> option (list float32))
    (db : VectorDB Meta) (toolName : string) (prompts : list string)
    (successfulTests : nat) : option nat :=
  match prompts with
  | [] => Some successfulTests
  | p :: prompts' =>
      vector ← createEmbeddings p;
      queryResults ← Query db vector rank1_options;
      calculateSuccessRate_prompts createEmbeddings db toolName prompts'
        (match queryResults with
         | r :: _ =>
             if String.eqb (Entry_ID (Result_Entry r)) toolName
             then S successfulTests else successfulTests
         | [] => successfulTests
         end)
  end.

(** The outer loop, over the map [toolNameWithPrompts]: the list holds
    the keys and their prompts in the order in which [range] meets them,
    which changes from one run to the next. *)
Fixpoint calculateSuccessRate_tools
    (createEmbeddings : string -> option (list float32))
    (db : VectorDB Meta) (toolNameWithPrompts : list (string * list string))
    (successfulTests : nat) : option nat :=
  match toolNameWithPrompts with
  | [] => Some successfulTests
  | (toolName, prompts) :: rest =>
      successfulTests' ←
        calculateSuccessRate_prompts createEmbeddings db toolName prompts
          successfulTests;
      calculateSuccessRate_tools createEmbeddings db rest successfulTests'
  end.

Definition calculateSuccessRate
    (createEmbeddings : string -> option (list float32))
    (db : VectorDB Meta) (toolNameWithPrompts : list (string * list string))
    : option nat :=
  calculateSuccessRate_tools createEmbeddings db toolNameWithPrompts 0.

(** The number of prompts of the map, which [runPrompts] counts in
    [promptCount]. *)
Definition promptCount (toolNameWithPrompts : list (string * list string))
    : nat :=
  sum_list (map (fun tp => length (snd tp)) toolNameWithPrompts).
End Callers.

(** ** The reading of the specification *)

(** The order of two scores as the specification words it: the first one
    is no worse than the second one in the direction of the metric, the
    greater score being the closer one when [BiggerIsCloser] is true and
    the lower score when it is false. *)
Definition spec_no_worse (m : DistanceMetric) (earlier later : float32)
    : bool :=
  if BiggerIsCloser m then F32.ge earlier later else F32.ge later earlier.

(** The cutoff as the specification words it: a score passes when it is at
    least as close as the minimum in the direction of the metric. *)
Definition spec_passes_cutoff (m : DistanceMetric) (score minimum : float32)
    : bool :=
  spec_no_worse m score minimum.

(** ** Stores and queries used as examples *)

Module Examples.
Local Open Scope string_scope.
Local Open Scope Z_scope.

(** The metadata of an entry: a name, or [nil]. *)
Definition Meta : Type := option string.

Definition vec (zs : list Z) : list float32 := map F32.of_Z zs.

Definition entryA : Entry Meta := mkEntry "A" (Some "Jeff") (vec [1; 0]).
Definition entryB : Entry Meta := mkEntry "B" (Some "Marc") (vec [0; 1]).
Definition entryC : Entry Meta := mkEntry "C" None (vec [1; 1]).
Definition entryB' : Entry Meta := mkEntry "B" (Some "Aidan") (vec [2; 2]).

(** The float32 nearest to the cosine of 45 degrees, 0.70710677. *)
Definition cos45 : float32 := S754_finite false 11863283 (-24).

Definition cosine_db : VectorDB Meta :=
  NewVectorDB CosineSimilarity [entryA; entryB; entryC].

Definition dot_db : VectorDB Meta :=
  NewVectorDB DotProduct [entryA; entryB; entryC].

Definition empty_db : VectorDB Meta := NewVectorDB CosineSimilarity [].

(** A store with an entry whose vector is null: its cosine with any
    vector is the quotient of zero by zero, a NaN. *)
Definition entryZ : Entry Meta := mkEntry "Z" None (vec [0; 0]).

Definition null_db : VectorDB Meta :=
  NewVectorDB CosineSimilarity [entryA; entryZ].

Definition some_ops : list (@Op Meta) :=
  [OpUpsert entryC; OpUpsert entryB; OpDelete "C"; OpUpsert entryA;
   OpUpsert entryB'; OpDelete "D"].

Definition options (k : Z) (minimum : float32) : QueryOptions Meta :=
  {| TopK := k; MinimumScore := minimum; Predicate := None |}.

Definition named (e : Entry Meta) : bool :=
  match Metadata e with Some _ => true | None => false end.

Definition named_options : QueryOptions Meta :=
  {| TopK := 3; MinimumScore := F32.of_Z 0; Predicate := Some named |}.

Definition nobody (e : Entry Meta) : bool := false.

(** The identifiers a, aa, aaa, ... in ascending order. *)
Fixpoint ident (n : nat) : ID :=
  match n with
  | O => "a"
  | S n' => String "a" (ident n')
  end.

Definition unit_entry (k : nat) : Entry Meta :=
  mkEntry (ident k) None (vec [1]).

(** A store of 101 entries, all of them at the score 1 of the query
    vector [vec [1]]: one more entry than [threshold]. *)
Definition big_db : VectorDB Meta :=
  NewVectorDB CosineSimilarity (map unit_entry (seq 0 101)).

Definition big_ops : list (@Op Meta) :=
  map (fun k => OpUpsert (unit_entry k)) (seq 0 101).

(** An embedding service for two prompts; it fails on every other one. *)
Definition embed (p : string) : option (list float32) :=
  if String.eqb p "north" then Some (vec [1; 0])
  else if String.eqb p "east" then Some (vec [0; 1])
  else None.

Definition prompts : list (string * list string) :=
  [("A", ["north"; "east"]); ("B", ["east"])].

Definition prompts' : list (string * list string) :=
  [("B", ["east"]); ("A", ["north"; "east"])].

Definition entryD : Entry Meta := mkEntry "D" None (vec [3; 4]).

Definition upserts_ABC : list (@Op Meta) :=
  [OpUpsert entryA; OpUpsert entryB; OpUpsert entryC].

Definition upserts_CAB : list (@Op Meta) :=
  [OpUpsert entryC; OpUpsert entryA; OpUpsert entryB].
End Examples.

(** * Properties *)

(** ** The order of identifiers *)

Lemma ID_ltb_lt (a b : ID) : String.ltb a b = true <-> String_as_OT.lt a b.
Proof.
  unfold String.ltb. rewrite <- String_as_OT.cmp_lt. unfold String_as_OT.cmp.
  destruct (String.compare a b); split; congruence.
Qed.

Lemma ID_ltb_trans (a b c : ID) :
  String.ltb a b = true -> String.ltb b c = true -> String.ltb a c = true.
Proof.
  rewrite !ID_ltb_lt. apply String_as_OT.lt_trans.
Qed.

Lemma ID_ltb_irrefl (a : ID) : String.ltb a a = false.
Proof.
  destruct (String.ltb a a) eqn:H; [|done].
  apply ID_ltb_lt in H. by apply String_as_OT.lt_not_eq in H.
Qed.

Lemma ID_ltb_asym (a b : ID) : String.ltb a b = true -> String.ltb b a = false.
Proof.
  intros H. destruct (String.ltb b a) eqn:H'; [|done].
  by rewrite <- (ID_ltb_irrefl a), <- (ID_ltb_trans a b a H H').
Qed.

Lemma ID_ltb_total (a b : ID) :
  String.ltb a b = false -> String.ltb b a = false -> a = b.
Proof.
  unfold String.ltb. rewrite (String.compare_antisym a b).
  destruct (String.compare b a) eqn:H; simpl; try done.
  intros _ _. symmetry. by apply String.compare_eq_iff.
Qed.

(** ** The order of scores *)

Lemma mag_compare_antisym e1 m1 e2 m2 :
  mag_compare e2 m2 e1 m1 = CompOpp (mag_compare e1 m1 e2 m2).
Proof.
  unfold mag_compare.
  rewrite (Z.compare_antisym e1 e2), (Pos.compare_antisym m1 m2).
  by destruct (Z.compare e1 e2).
Qed.

Lemma mag_compare_trans e1 m1 e2 m2 e3 m3 c :
  mag_compare e1 m1 e2 m2 <> c -> mag_compare e2 m2 e3 m3 <> c -> c <> Eq ->
  mag_compare e1 m1 e3 m3 <> c /\
  (mag_compare e1 m1 e2 m2 = CompOpp c \/ mag_compare e2 m2 e3 m3 = CompOpp c ->
   mag_compare e1 m1 e3 m3 = CompOpp c).
Proof.
  unfold mag_compare.
  destruct (Z.compare_spec e1 e2), (Z.compare_spec e2 e3),
    (Z.compare_spec e1 e3); try lia;
    destruct (Pos.compare_spec m1 m2), (Pos.compare_spec m2 m3),
      (Pos.compare_spec m1 m3);
    try lia; destruct c; simpl; intuition congruence.
Qed.

Lemma SFcompare_finite s1 m1 e1 s2 m2 e2 :
  SFcompare (S754_finite s1 m1 e1) (S754_finite s2 m2 e2) =
  Some match s1, s2 with
       | true, false => Lt
       | false, true => Gt
       | false, false => mag_compare e1 m1 e2 m2
       | true, true => CompOpp (mag_compare e1 m1 e2 m2)
       end.
Proof.
  unfold mag_compare, Pos.compare. simpl.
  destruct s1, s2; try done. by destruct (Z.compare e1 e2).
Qed.

Lemma SFcompare_antisym a b : SFcompare b a = CompOpp <$> SFcompare a b.
Proof.
  destruct a as [[]|[]| |s1 m1 e1], b as [[]|[]| |s2 m2 e2]; try done;
    try (by destruct s1); try (by destruct s2).
  rewrite !SFcompare_finite, mag_compare_antisym. simpl.
  by destruct s1, s2.
Qed.

Lemma SFcompare_not_nan a b :
  is_nan a = false -> is_nan b = false -> is_Some (SFcompare a b).
Proof.
  destruct a as [[]|[]| |s1 m1 e1], b as [[]|[]| |s2 m2 e2]; try done; eauto.
Qed.

(** The comparison of numbers is transitive: from [a >= b] and [b >= c]
    comes [a >= c], and [a > c] when one of the two is strict. *)
Lemma SFcompare_trans a b c c1 c2 :
  SFcompare a b = Some c1 -> SFcompare b c = Some c2 ->
  c1 <> Lt -> c2 <> Lt ->
  exists c3, SFcompare a c = Some c3 /\ c3 <> Lt /\
             (c1 = Gt \/ c2 = Gt -> c3 = Gt).
Proof.
  destruct a as [s1|s1| |s1 m1 e1], b as [s2|s2| |s2 m2 e2],
    c as [s3|s3| |s3 m3 e3];
    rewrite ?SFcompare_finite; simpl; try done;
    intros [= <-] [= <-] H1 H2;
    try (pose proof (mag_compare_trans e1 m1 e2 m2 e3 m3 Lt);
         pose proof (mag_compare_trans e1 m1 e2 m2 e3 m3 Gt));
    destruct s1, s2, s3; simpl in *; try done;
    (eexists; split; [done|]);
    repeat match goal with
    | H : context [mag_compare ?a ?b ?c ?d] |- _ =>
        destruct (mag_compare a b c d)
    | |- context [mag_compare ?a ?b ?c ?d] =>
        destruct (mag_compare a b c d)
    end; simpl in *; intuition congruence.
Qed.

Lemma F32_ge_compare a b :
  F32.ge a b = true <-> exists c, SFcompare a b = Some c /\ c <> Lt.
Proof.
  unfold F32.ge, SFleb. rewrite (SFcompare_antisym a b).
  destruct (SFcompare a b) as [[]|]; simpl; split; try done;
    try (intros _; eexists; split; [done|done]).
  - by intros (c & [= <-] & ?).
  - by intros (c & ? & ?).
Qed.

Lemma F32_gt_compare a b : F32.gt a b = true <-> SFcompare a b = Some Gt.
Proof.
  unfold F32.gt, SFltb. rewrite (SFcompare_antisym a b).
  destruct (SFcompare a b) as [[]|]; simpl; split; done.
Qed.

Lemma F32_lt_compare a b : F32.lt a b = true <-> SFcompare a b = Some Lt.
Proof.
  unfold F32.lt, SFltb. destruct (SFcompare a b) as [[]|]; split; done.
Qed.

Lemma F32_ge_trans a b c :
  F32.ge a b = true -> F32.ge b c = true -> F32.ge a c = true.
Proof.
  rewrite !F32_ge_compare. intros (c1 & H1 & ?) (c2 & H2 & ?).
  destruct (SFcompare_trans a b c c1 c2) as (c3 & ? & ? & _); eauto.
Qed.

Lemma F32_ge_gt_trans a b c :
  F32.ge a b = true -> F32.gt b c = true -> F32.gt a c = true.
Proof.
  rewrite F32_ge_compare, !F32_gt_compare. intros (c1 & H1 & ?) H2.
  destruct (SFcompare_trans a b c c1 Gt) as (c3 & ? & ? & Hc3); try done.
  by rewrite <- Hc3 by by right.
Qed.

Lemma F32_gt_ge a b : F32.gt a b = true -> F32.ge a b = true.
Proof.
  rewrite F32_ge_compare, F32_gt_compare. intros ->. by exists Gt.
Qed.

Lemma F32_gt_not_lt a b : F32.gt a b = true -> F32.lt a b = false.
Proof.
  rewrite F32_gt_compare. unfold F32.lt, SFltb. by intros ->.
Qed.

(** Two numbers, none of them a NaN, are comparable. *)
Lemma F32_ge_total a b :
  is_nan a = false -> is_nan b = false -> F32.gt a b = false ->
  F32.ge b a = true.
Proof.
  intros Ha Hb. destruct (SFcompare_not_nan a b Ha Hb) as [c Hc].
  unfold F32.gt, F32.ge, SFleb, SFltb.
  rewrite (SFcompare_antisym a b), Hc. by destruct c.
Qed.

Lemma F32_not_ge a b :
  is_nan a = false -> is_nan b = false -> F32.ge a b = false ->
  F32.ge b a = true.
Proof.
  intros Ha Hb. destruct (SFcompare_not_nan a b Ha Hb) as [c Hc].
  unfold F32.ge, SFleb.
  rewrite (SFcompare_antisym a b), Hc. by destruct c.
Qed.

(** ** Binary search *)

Lemma half_bounds (i j : nat) : i < j -> i <= (i + j) / 2 < j.
Proof.
  intros H. split.
  - apply Nat.div_le_lower_bound; lia.
  - apply Nat.Div0.div_lt_upper_bound; lia.
Qed.

Section BinarySearch.
Context {E T : Type} (x : list E) (target : T) (cmp : E -> T -> Z).

Lemma bsearch_loop_unfold (fuel i j : nat) :
  bsearch_loop x target cmp fuel i j =
  if i <? j then
    match fuel with
    | O => None
    | S fuel' =>
        match x !! ((i + j) / 2) with
        | None => None
        | Some xh =>
            if (cmp xh target <? 0)%Z
            then bsearch_loop x target cmp fuel' ((i + j) / 2 + 1) j
            else bsearch_loop x target cmp fuel' i ((i + j) / 2)
        end
    end
  else Some i.
Proof. by destruct fuel. Qed.

(** The loop returns, with an index of the interval it was given, as soon
    as it may run for [j - i] iterations. *)
Lemma bsearch_loop_fuel (fuel i j : nat) :
  i <= j <= length x -> j - i <= fuel ->
  exists r, bsearch_loop x target cmp fuel i j = Some r /\ i <= r <= j.
Proof.
  revert i j. induction fuel as [|fuel IH]; intros i j Hij Hfuel;
    rewrite bsearch_loop_unfold.
  - destruct (Nat.ltb_spec i j); [lia|]. exists i. split; [done|lia].
  - destruct (Nat.ltb_spec i j) as [Hlt|Hge]; [|exists i; split; [done|lia]].
    pose proof (half_bounds i j Hlt) as Hh.
    destruct (lookup_lt_is_Some_2 x ((i + j) / 2)) as [xh Hxh]; [lia|].
    rewrite Hxh. destruct (cmp xh target <? 0)%Z.
    + destruct (IH ((i + j) / 2 + 1) j) as (r & Hr & ?); [lia|lia|].
      exists r. split; [done|lia].
    + destruct (IH i ((i + j) / 2)) as (r & Hr & ?); [lia|lia|].
      exists r. split; [done|lia].
Qed.

(** When the elements that precede the target form a prefix of the
    slice, the loop returns the length of this prefix. *)
Hypothesis precedes_prefix : forall a b ea eb,
  a <= b -> x !! a = Some ea -> x !! b = Some eb ->
  precedes target cmp eb = true -> precedes target cmp ea = true.

Lemma bsearch_loop_partition (fuel i j r : nat) :
  i <= j <= length x ->
  (forall k e, k < i -> x !! k = Some e -> precedes target cmp e = true) ->
  (forall k e, j <= k -> x !! k = Some e -> precedes target cmp e = false) ->
  bsearch_loop x target cmp fuel i j = Some r ->
  i <= r <= j /\
  (forall k e, k < r -> x !! k = Some e -> precedes target cmp e = true) /\
  (forall k e, r <= k -> x !! k = Some e -> precedes target cmp e = false).
Proof.
  revert i j. induction fuel as [|fuel IH]; intros i j Hij Hlo Hhi;
    rewrite bsearch_loop_unfold.
  - destruct (Nat.ltb_spec i j); [done|]. intros [= <-].
    split; [lia|]. split; [done|]. intros k e ?. apply Hhi. lia.
  - destruct (Nat.ltb_spec i j) as [Hlt|Hge].
    2:{ intros [= <-]. split; [lia|]. split; [done|].
        intros k e ?. apply Hhi. lia. }
    pose proof (half_bounds i j Hlt) as Hh.
    destruct (x !! ((i + j) / 2)) as [xh|] eqn:Hxh; [|done].
    change (cmp xh target <? 0)%Z with (precedes target cmp xh).
    destruct (precedes target cmp xh) eqn:Hp; intros Hr.
    + apply IH in Hr as (? & ? & ?); [split; [lia|done]|lia| |done].
      intros k e Hk He. apply (precedes_prefix k ((i + j) / 2) e xh); [lia|done..].
    + apply IH in Hr as (? & ? & ?); [split; [lia|done]|lia|done|].
      intros k e Hk He. destruct (precedes target cmp e) eqn:Hpe; [|done].
      rewrite <- Hp. symmetry.
      apply (precedes_prefix ((i + j) / 2) k xh e); [lia|done..].
Qed.
End BinarySearch.

(** [slices.BinarySearchFunc] never panics and returns a position of the
    slice or its length. *)
Lemma BinarySearchFunc_total {E T : Type} (x : list E) (target : T)
    (cmp : E -> T -> Z) :
  exists n ok, BinarySearchFunc x target cmp = Some (n, ok) /\ n <= length x.
Proof.
  unfold BinarySearchFunc.
  destruct (bsearch_loop_fuel x target cmp (length x) 0 (length x))
    as (r & Hr & ?); [lia|lia|].
  rewrite Hr. simpl. eexists _, _. split; [done|lia].
Qed.

(** On a slice where the elements that precede the target form a prefix,
    the position returned splits the slice into these elements and the
    other ones. *)
Lemma BinarySearchFunc_partition {E T : Type} (x : list E) (target : T)
    (cmp : E -> T -> Z) (n : nat) (ok : bool) :
  (forall a b ea eb, a <= b -> x !! a = Some ea -> x !! b = Some eb ->
     precedes target cmp eb = true -> precedes target cmp ea = true) ->
  BinarySearchFunc x target cmp = Some (n, ok) ->
  n <= length x /\
  (forall k e, k < n -> x !! k = Some e -> precedes target cmp e = true) /\
  (forall k e, n <= k -> x !! k = Some e -> precedes target cmp e = false).
Proof.
  intros Hprefix. unfold BinarySearchFunc.
  destruct (bsearch_loop x target cmp (length x) 0 (length x)) as [r|] eqn:Hr;
    simpl; [|done].
  intros [= <- _].
  apply bsearch_loop_partition in Hr as (? & ? & ?); [|done|lia|..].
  - split; [lia|done].
  - intros; lia.
  - intros k e Hk He. apply lookup_lt_Some in He. lia.
Qed.

(** ** Sorted lists *)

Lemma StronglySorted_lookup_lt {A : Type} (R : relation A) (l : list A)
    (i j : nat) (a b : A) :
  StronglySorted R l -> i < j -> l !! i = Some a -> l !! j = Some b -> R a b.
Proof.
  intros Hs Hij Ha Hb. rewrite <- (take_drop j l) in Hs.
  eapply StronglySorted_app_1_elem_of; [exact Hs| |].
  - apply elem_of_take. eauto.
  - apply list_elem_of_lookup. exists 0.
    by rewrite lookup_drop, Nat.add_0_r.
Qed.

(** An element that is after those of the first [n] positions and before
    the other ones fits at the position [n]. *)
Lemma StronglySorted_insert {A : Type} (R : relation A) (l : list A)
    (n : nat) (x : A) :
  StronglySorted R l ->
  Forall (fun a => R a x) (take n l) -> Forall (R x) (drop n l) ->
  StronglySorted R (take n l ++ x :: drop n l).
Proof.
  intros Hs Hbefore Hafter. rewrite <- (take_drop n l) in Hs.
  apply StronglySorted_app in Hs as (Hcross & Hs1 & Hs2).
  apply StronglySorted_app_2; [|done|by constructor].
  intros x1 x2 Hx1 [->|Hx2]%elem_of_cons.
  - by apply (proj1 (Forall_forall _ _) Hbefore).
  - by apply Hcross.
Qed.

Lemma half_lt (n : nat) : 2 <= n -> 1 <= n / 2 < n.
Proof.
  intros H. split.
  - apply Nat.div_le_lower_bound; lia.
  - apply Nat.div_lt; lia.
Qed.

(** ** The sort invariant and the search of an identifier *)

Section StoreFacts.
Context {Meta : Type}.
Implicit Types (es : list (Entry Meta)) (e : Entry Meta) (id : ID).
Implicit Types (db : VectorDB Meta).

#[local] Instance ID_lt_trans : Transitive (@ID_lt Meta).
Proof. intros a b c. apply ID_ltb_trans. Qed.

Lemma sorted_by_ID_Sorted es :
  sorted_by_ID es = true <-> Sorted ID_lt es.
Proof.
  induction es as [|e1 [|e2 es] IH].
  - split; [constructor|done].
  - split; [repeat constructor|done].
  - change (sorted_by_ID (e1 :: e2 :: es))
      with (String.ltb (Entry_ID e1) (Entry_ID e2) && sorted_by_ID (e2 :: es)).
    rewrite andb_true_iff, IH. split.
    + intros [? ?]. constructor; [done|]. by constructor.
    + intros H. inversion H as [|? ? ? Hhd]; subst.
      by inversion Hhd; subst.
Qed.

(** The test [sorted_by_ID] decides the invariant [sorted_IDs]. *)
Lemma sorted_by_ID_spec es : sorted_by_ID es = true <-> sorted_IDs es.
Proof.
  rewrite sorted_by_ID_Sorted. split.
  - by apply (sorting.Sorted_StronglySorted ID_lt).
  - apply StronglySorted_Sorted.
Qed.

Lemma sorted_IDs_lookup es (i j : nat) (a b : Entry Meta) :
  sorted_IDs es -> i < j -> es !! i = Some a -> es !! j = Some b ->
  ID_lt a b.
Proof. apply StronglySorted_lookup_lt. Qed.

Lemma precedes_search_cmp e id :
  precedes id search_cmp e = String.ltb (Entry_ID e) id.
Proof.
  unfold precedes, search_cmp.
  destruct (String.ltb (Entry_ID e) id); [done|].
  by destruct (String.ltb id (Entry_ID e)).
Qed.

Lemma search_cmp_zero e id :
  String.ltb (Entry_ID e) id = false ->
  (search_cmp e id =? 0)%Z = negb (String.ltb id (Entry_ID e)).
Proof.
  unfold search_cmp. intros ->. by destruct (String.ltb id (Entry_ID e)).
Qed.

(** What [search] returns on a sorted slice: the slice splits at the
    position [n] into the entries below [id] and the entries above it,
    with the entry of [id] in between when there is one, and [ok] tells
    whether there is one. *)
Lemma search_sorted es id :
  sorted_IDs es ->
  exists n ok l1 l2,
    BinarySearchFunc es id search_cmp = Some (n, ok) /\
    es = l1 ++ l2 /\ length l1 = n /\
    Forall (fun e => String.ltb (Entry_ID e) id = true) l1 /\
    if ok then
      exists e l2', l2 = e :: l2' /\ Entry_ID e = id /\
        Forall (fun e => String.ltb id (Entry_ID e) = true) l2'
    else Forall (fun e => String.ltb id (Entry_ID e) = true) l2.
Proof.
  intros Hs. unfold BinarySearchFunc.
  destruct (bsearch_loop_fuel es id search_cmp (length es) 0 (length es))
    as (n & Hn & Hrange); [lia|lia|].
  rewrite Hn. simpl.
  apply bsearch_loop_partition in Hn as (_ & Hlo & Hhi).
  3: lia.
  3: intros; lia.
  3: intros k e Hk He; apply lookup_lt_Some in He; lia.
  2:{ intros a b ea eb Hab Ha Hb. rewrite !precedes_search_cmp.
      destruct (decide (a = b)) as [->|]; [congruence|].
      intros Hb'. eapply ID_ltb_trans; [|exact Hb'].
      apply (sorted_IDs_lookup es a b); [done|lia|done..]. }
  eexists n, _, (take n es), (drop n es).
  split; [done|]. split; [by rewrite take_drop|].
  split; [apply length_take_le; lia|]. split.
  { apply Forall_lookup. intros k e [He Hk]%lookup_take_Some.
    rewrite <- precedes_search_cmp. eauto. }
  assert (Habove : forall k a e, es !! n = Some a ->
            String.ltb id (Entry_ID a) = true \/ Entry_ID a = id ->
            n < k -> es !! k = Some e -> String.ltb id (Entry_ID e) = true).
  { intros k a e Ha Hid Hk He.
    pose proof (sorted_IDs_lookup es n k a e Hs Hk Ha He) as Hae.
    destruct Hid as [Hid| <-]; [|done]. by eapply ID_ltb_trans. }
  destruct (es !! n) as [a|] eqn:Ha.
  - pose proof (Hhi n a (Nat.le_refl n) Ha) as Hpa.
    rewrite precedes_search_cmp in Hpa. rewrite (search_cmp_zero _ _ Hpa).
    apply lookup_lt_Some in Ha as Hlt.
    destruct (Nat.ltb_spec n (length es)); [|lia]. simpl.
    rewrite (drop_S es a n Ha).
    destruct (String.ltb id (Entry_ID a)) eqn:Hgt; simpl.
    + apply Forall_cons. split; [done|].
      apply Forall_lookup. intros k e He. rewrite lookup_drop in He.
      apply (Habove (S n + k) a e); [done|by left|lia|done].
    + exists a, (drop (S n) es). split; [done|].
      assert (Entry_ID a = id) by by apply ID_ltb_total.
      split; [done|].
      apply Forall_lookup. intros k e He. rewrite lookup_drop in He.
      apply (Habove (S n + k) a e); [done|by right|lia|done].
  - apply lookup_ge_None in Ha. rewrite drop_ge by lia. constructor.
Qed.

Lemma entry_of_app id (l1 l2 : list (Entry Meta)) :
  entry_of id (l1 ++ l2) =
  match entry_of id l1 with Some e => Some e | None => entry_of id l2 end.
Proof.
  unfold entry_of. induction l1 as [|a l1 IH]; simpl; [done|].
  by destruct (String.eqb (Entry_ID a) id).
Qed.

Lemma entry_of_other id (l : list (Entry Meta)) :
  Forall (fun e => Entry_ID e <> id) l -> entry_of id l = None.
Proof.
  unfold entry_of. induction 1 as [|a l Ha _ IH]; simpl; [done|].
  by apply String.eqb_neq in Ha as ->.
Qed.

Lemma entry_of_below id (l : list (Entry Meta)) :
  Forall (fun e => String.ltb (Entry_ID e) id = true) l ->
  entry_of id l = None.
Proof.
  intros H. apply entry_of_other. eapply Forall_impl; [exact H|].
  intros e He <-. by rewrite ID_ltb_irrefl in He.
Qed.

Lemma entry_of_above id (l : list (Entry Meta)) :
  Forall (fun e => String.ltb id (Entry_ID e) = true) l ->
  entry_of id l = None.
Proof.
  intros H. apply entry_of_other. eapply Forall_impl; [exact H|].
  intros e He <-. by rewrite ID_ltb_irrefl in He.
Qed.

Lemma entry_of_cons id e (l : list (Entry Meta)) :
  entry_of id (e :: l) =
  if String.eqb (Entry_ID e) id then Some e else entry_of id l.
Proof. done. Qed.

(** An entry whose identifier lies between those of [l1] and those of
    [l2] fits between them. *)
Lemma sorted_IDs_middle (l1 l2 : list (Entry Meta)) e :
  sorted_IDs l1 -> sorted_IDs l2 ->
  Forall (fun a => String.ltb (Entry_ID a) (Entry_ID e) = true) l1 ->
  Forall (fun a => String.ltb (Entry_ID e) (Entry_ID a) = true) l2 ->
  sorted_IDs (l1 ++ e :: l2).
Proof.
  intros Hs1 Hs2 Hl1 Hl2. apply StronglySorted_app_2.
  - intros x1 x2 Hx1 [->|Hx2]%elem_of_cons.
    + by apply (proj1 (Forall_forall _ _) Hl1).
    + eapply ID_ltb_trans.
      * by apply (proj1 (Forall_forall _ _) Hl1).
      * by apply (proj1 (Forall_forall _ _) Hl2).
  - done.
  - by constructor.
Qed.

Lemma sorted_IDs_between (l1 l2 : list (Entry Meta)) id :
  sorted_IDs l1 -> sorted_IDs l2 ->
  Forall (fun a => String.ltb (Entry_ID a) id = true) l1 ->
  Forall (fun a => String.ltb id (Entry_ID a) = true) l2 ->
  sorted_IDs (l1 ++ l2).
Proof.
  intros Hs1 Hs2 Hl1 Hl2. apply StronglySorted_app_2; [|done..].
  intros x1 x2 Hx1 Hx2. eapply ID_ltb_trans.
  - by apply (proj1 (Forall_forall _ _) Hl1).
  - by apply (proj1 (Forall_forall _ _) Hl2).
Qed.

(** Identifiers in strictly ascending order are pairwise distinct. *)
Lemma sorted_IDs_NoDup es : sorted_IDs es -> NoDup (Entry_ID <$> es).
Proof.
  induction 1 as [|e es _ IH Hall]; simpl; constructor; [|done].
  intros (e' & Heq & He')%list_elem_of_fmap.
  pose proof (proj1 (Forall_forall _ _) Hall e' He') as Hlt.
  unfold ID_lt in Hlt. by rewrite Heq, ID_ltb_irrefl in Hlt.
Qed.

(** [Upsert] on a sorted store: it returns, the store stays sorted, and
    the store then holds [entry] for its identifier and what it held
    before for every other identifier. *)
Lemma Upsert_sorted entry db :
  sorted_IDs (entries db) ->
  exists db', Upsert entry db = Some db' /\
    sorted_IDs (entries db') /\
    distanceMetric db' = distanceMetric db /\
    forall id, entry_of id (entries db') =
      if String.eqb (Entry_ID entry) id then Some entry
      else entry_of id (entries db).
Proof.
  intros Hs.
  destruct (search_sorted (entries db) (Entry_ID entry) Hs)
    as (n & ok & l1 & l2 & Hsearch & Hes & Hn & Hl1 & Hok).
  unfold Upsert, search. rewrite Hsearch. simpl.
  rewrite Hes in Hs |- *. subst n.
  apply StronglySorted_app in Hs as (_ & Hs1 & Hs2).
  destruct ok; simpl.
  - destruct Hok as (a & l2' & -> & Ha & Hl2).
    destruct (Nat.ltb_spec (length l1) (length (l1 ++ a :: l2'))) as [_|Hge].
    2:{ rewrite length_app in Hge. simpl in Hge. lia. }
    eexists. split; [done|]. simpl.
    rewrite insert_app_r_alt, Nat.sub_diag by done. simpl.
    apply StronglySorted_inv in Hs2 as [Hs2 _].
    split; [by apply sorted_IDs_middle|]. split; [done|].
    intros id. rewrite !entry_of_app, !entry_of_cons, Ha.
    destruct (String.eqb_spec (Entry_ID entry) id) as [<-|]; [|done].
    by rewrite entry_of_below.
  - unfold slices_Insert.
    destruct (Nat.leb_spec (length l1) (length (l1 ++ l2))) as [_|Hgt].
    2:{ rewrite length_app in Hgt. lia. }
    rewrite take_app_length, drop_app_length.
    eexists. split; [done|]. simpl.
    split; [by apply sorted_IDs_middle|]. split; [done|].
    intros id. rewrite !entry_of_app, entry_of_cons.
    destruct (String.eqb_spec (Entry_ID entry) id) as [<-|]; [|done].
    by rewrite entry_of_below.
Qed.

(** [Delete] on a sorted store: it returns, the store stays sorted, and
    the store then holds nothing for [id] and what it held before for
    every other identifier. *)
Lemma Delete_sorted id db :
  sorted_IDs (entries db) ->
  exists db', Delete id db = Some db' /\
    sorted_IDs (entries db') /\
    distanceMetric db' = distanceMetric db /\
    forall id', entry_of id' (entries db') =
      if String.eqb id id' then None else entry_of id' (entries db).
Proof.
  intros Hs.
  destruct (search_sorted (entries db) id Hs)
    as (n & ok & l1 & l2 & Hsearch & Hes & Hn & Hl1 & Hok).
  unfold Delete, search. rewrite Hsearch. simpl.
  destruct ok; simpl.
  - destruct Hok as (a & l2' & -> & Ha & Hl2).
    unfold slices_Delete. rewrite Hes. subst n.
    destruct (Nat.leb_spec (length l1) (length l1 + 1)); [|lia].
    destruct (Nat.leb_spec (length l1 + 1) (length (l1 ++ a :: l2')))
      as [_|Hgt].
    2:{ rewrite length_app in Hgt. simpl in Hgt. lia. }
    simpl. rewrite take_app_length.
    rewrite (drop_app_add' l1 (a :: l2') (length l1) 1) by done. simpl.
    rewrite drop_0.
    eexists. split; [done|]. simpl.
    rewrite Hes in Hs. apply StronglySorted_app in Hs as (_ & Hs1 & Hs2).
    apply StronglySorted_inv in Hs2 as [Hs2 _].
    split; [by apply (sorted_IDs_between l1 l2' id)|]. split; [done|].
    intros id'. rewrite !entry_of_app, entry_of_cons, Ha.
    destruct (String.eqb_spec id id') as [<-|]; [|done].
    by rewrite entry_of_below, entry_of_above.
  - exists db. split; [done|]. split; [done|]. split; [done|].
    intros id'. destruct (String.eqb_spec id id') as [<-|]; [|done].
    by rewrite Hes, entry_of_app, entry_of_below, entry_of_above.
Qed.

(** [Get] on a sorted store returns the entry the store holds for [id]
    with the flag [true], or no entry with the flag [false]. *)
Lemma Get_sorted id db :
  sorted_IDs (entries db) ->
  Get id db = Some (entry_of id (entries db),
                    bool_decide (is_Some (entry_of id (entries db)))).
Proof.
  intros Hs.
  destruct (search_sorted (entries db) id Hs)
    as (n & ok & l1 & l2 & Hsearch & Hes & Hn & Hl1 & Hok).
  unfold Get, search. rewrite Hsearch. simpl. rewrite Hes.
  rewrite entry_of_app, entry_of_below by done.
  destruct ok; simpl.
  - destruct Hok as (a & l2' & -> & Ha & Hl2).
    rewrite list_lookup_middle by done.
    rewrite entry_of_cons, Ha, String.eqb_refl. done.
  - by rewrite entry_of_above.
Qed.

Lemma apply_op_sorted op db :
  sorted_IDs (entries db) ->
  exists db', apply_op op db = Some db' /\
    sorted_IDs (entries db') /\
    forall id, entry_of id (entries db') =
               written id [op] (entry_of id (entries db)).
Proof.
  intros Hs. destruct op as [entry|id']; simpl.
  - destruct (Upsert_sorted entry db Hs) as (db' & ? & ? & _ & ?). eauto.
  - destruct (Delete_sorted id' db Hs) as (db' & ? & ? & _ & ?). eauto.
Qed.

(** A sequence of operations on a sorted store runs to its end, leaves a
    sorted store, and the store then holds what was last written. *)
Lemma run_ops_sorted ops db :
  sorted_IDs (entries db) ->
  exists db', run_ops ops db = Some db' /\
    sorted_IDs (entries db') /\
    forall id, entry_of id (entries db') =
               written id ops (entry_of id (entries db)).
Proof.
  revert db. induction ops as [|op ops IH]; intros db Hs; simpl.
  - by exists db.
  - destruct (apply_op_sorted op db Hs) as (db1 & -> & Hs1 & H1). simpl.
    destruct (IH db1 Hs1) as (db' & -> & Hs' & H').
    exists db'. split; [done|]. split; [done|].
    intros id. rewrite H', H1. by destruct op.
Qed.

Lemma written_app id (ops1 ops2 : list (@Op Meta)) current :
  written id (ops1 ++ ops2) current =
  written id ops2 (written id ops1 current).
Proof.
  revert current. induction ops1 as [|[entry|id'] ops1 IH]; intros; simpl;
    by rewrite ?IH.
Qed.

Lemma written_untouched id (ops : list (@Op Meta)) current :
  forallb (fun op => negb (touches id op)) ops = true ->
  written id ops current = current.
Proof.
  revert current. induction ops as [|[entry|id'] ops IH]; intros current;
    simpl; [done|..]; intros [Hop Hops]%andb_true_iff;
    apply negb_true_iff in Hop; rewrite Hop; by apply IH.
Qed.

Lemma written_not_upserted id (ops : list (@Op Meta)) :
  forallb (fun op => negb (upserts id op)) ops = true ->
  written id ops None = None.
Proof.
  induction ops as [|[entry|id'] ops IH]; simpl; [done|..].
  - intros [Hop Hops]%andb_true_iff.
    apply negb_true_iff in Hop. rewrite Hop. by apply IH.
  - intros Hops. destruct (String.eqb id' id); by apply IH.
Qed.
End StoreFacts.

(** ** The merge of two partial result lists *)

Section QueryFacts.
Context {Meta : Type}.
Implicit Types (m : DistanceMetric) (o : QueryOptions Meta).
Implicit Types (e : Entry Meta) (es : list (Entry Meta)).
Implicit Types (qr : QueryResult Meta).
Implicit Types (rs results leftResult rightResult : list (QueryResult Meta)).

(** The merge loop, run for as many iterations as both lists have
    results, returns: it appends to [results] a list made of the results
    of both lists. *)
Lemma merge_loop_perm (k : nat) leftResult rightResult results :
  k = length leftResult + length rightResult ->
  exists out,
    merge_loop k leftResult rightResult results = Some (results ++ out) /\
    out ≡ₚ leftResult ++ rightResult.
Proof.
  revert leftResult rightResult results.
  induction k as [|k IH]; intros l r acc Hk.
  - destruct l, r; try done. exists []. by rewrite app_nil_r.
  - destruct l as [|x l], r as [|y r]; simpl in *; [lia|..].
    + destruct (IH [] r (acc ++ [y])) as (out & -> & Hout); [simpl; lia|].
      exists (y :: out). rewrite <- app_assoc. split; [done|].
      by constructor.
    + destruct (IH l [] (acc ++ [x])) as (out & -> & Hout); [simpl; lia|].
      exists (x :: out). rewrite <- app_assoc. split; [done|].
      by constructor.
    + destruct (F32.ge (Score x) (Score y)).
      * destruct (IH l (y :: r) (acc ++ [x])) as (out & -> & Hout);
          [simpl; lia|].
        exists (x :: out). rewrite <- app_assoc. split; [done|].
        by constructor.
      * destruct (IH (x :: l) r (acc ++ [y])) as (out & -> & Hout);
          [simpl; lia|].
        exists (y :: out). rewrite <- app_assoc. split; [done|].
        rewrite Hout. apply (Permutation_middle (x :: l) r y).
Qed.

(** The merge never panics and keeps every result of both lists: its
    length is the sum of theirs. *)
Lemma merge_perm leftResult rightResult :
  exists out, merge leftResult rightResult = Some out /\
              out ≡ₚ leftResult ++ rightResult.
Proof.
  unfold merge.
  destruct (merge_loop_perm (length leftResult + length rightResult)
              leftResult rightResult []) as (out & Hout & ?); [done|].
  eauto.
Qed.

Lemma merge_nil : @merge Meta [] [] = Some [].
Proof. done. Qed.

(** The first result of the merge is the head of the left list when its
    score is greater than or equal to that of the head of the right list,
    and the head of the right list otherwise. *)
Lemma merge_head l leftResult r rightResult out :
  merge (l :: leftResult) (r :: rightResult) = Some out ->
  head out = Some (if F32.ge (Score l) (Score r) then l else r).
Proof.
  unfold merge. simpl. destruct (F32.ge (Score l) (Score r)).
  - destruct (merge_loop_perm (length leftResult + S (length rightResult))
                leftResult (r :: rightResult) [l]) as (out' & -> & _);
      [done|]. by intros [= <-].
  - destruct (merge_loop_perm (length leftResult + S (length rightResult))
                (l :: leftResult) rightResult [r]) as (out' & -> & _);
      [simpl; lia|]. by intros [= <-].
Qed.

#[local] Instance score_ge_trans : Transitive (@score_ge Meta).
Proof. intros a b c. apply F32_ge_trans. Qed.

(** A result that is no lower than the first result of a descending
    list is no lower than any of them. *)
Lemma score_ge_all qr a rs :
  score_ge qr a -> StronglySorted score_ge (a :: rs) ->
  Forall (score_ge qr) (a :: rs).
Proof.
  intros Ha [Hrs Hall]%StronglySorted_inv. constructor; [done|].
  eapply Forall_impl; [exact Hall|]. intros b Hb. by etrans.
Qed.

Lemma sorted_snoc results qr :
  StronglySorted score_ge results -> Forall (fun a => score_ge a qr) results ->
  StronglySorted score_ge (results ++ [qr]).
Proof.
  intros Hs Hall. apply StronglySorted_app_2; [|done|by repeat constructor].
  intros x1 x2 Hx1 ->%list_elem_of_singleton.
  by apply (proj1 (Forall_forall _ _) Hall).
Qed.

(** The merge of two descending lists, when no score is a NaN, is a
    descending list. *)
Lemma merge_loop_sorted (k : nat) leftResult rightResult results out :
  k = length leftResult + length rightResult ->
  StronglySorted score_ge leftResult ->
  StronglySorted score_ge rightResult ->
  StronglySorted score_ge results ->
  Forall (fun a => Forall (score_ge a) (leftResult ++ rightResult)) results ->
  Forall (fun a => is_nan (Score a) = false) (leftResult ++ rightResult) ->
  merge_loop k leftResult rightResult results = Some out ->
  StronglySorted score_ge out.
Proof.
  revert leftResult rightResult results.
  induction k as [|k IH]; intros l r acc Hk Hl Hr Hacc Hcross Hnan.
  - simpl. by intros [= <-].
  - assert (Hstep : forall x l' r',
      Forall (score_ge x) (l' ++ r') ->
      (forall y, y ∈ l' ++ r' -> y ∈ l ++ r) ->
      x ∈ l ++ r ->
      StronglySorted score_ge (acc ++ [x]) /\
      Forall (fun a => Forall (score_ge a) (l' ++ r')) (acc ++ [x])).
    { intros x l' r' Hx Hsub Hin. split.
      - apply sorted_snoc; [done|].
        eapply Forall_impl; [exact Hcross|]. intros a Ha. simpl in Ha.
        by apply (proj1 (Forall_forall _ _) Ha).
      - apply Forall_app. split; [|by repeat constructor].
        eapply Forall_impl; [exact Hcross|]. intros a Ha. simpl in Ha.
        apply Forall_forall. intros y Hy.
        apply (proj1 (Forall_forall _ _) Ha). by apply Hsub. }
    destruct l as [|x l], r as [|y r]; simpl in Hk |- *; [done|..].
    + destruct (Hstep y [] r) as [? ?].
      { by apply StronglySorted_inv in Hr as [_ ?]. }
      { intros z Hz. by right. }
      { by left. }
      apply IH; try done; [simpl; lia|by apply StronglySorted_inv in Hr as [? _]|].
      by apply Forall_cons in Hnan as [_ ?].
    + destruct (Hstep x l []) as [? ?].
      { rewrite app_nil_r. by apply StronglySorted_inv in Hl as [_ ?]. }
      { intros z Hz. by right. }
      { by left. }
      apply IH; try done; [simpl; lia|by apply StronglySorted_inv in Hl as [? _]|].
      by apply Forall_cons in Hnan as [_ ?].
    + pose proof Hnan as Hnan'.
      apply Forall_cons in Hnan' as [Hx Hnan'].
      apply Forall_app in Hnan' as [_ [Hy _]%Forall_cons].
      destruct (F32.ge (Score x) (Score y)) eqn:Hxy.
      * destruct (Hstep x l (y :: r)) as [? ?].
        { apply Forall_app. split.
          - by apply StronglySorted_inv in Hl as [_ ?].
          - by apply score_ge_all. }
        { intros z Hz. by right. }
        { by left. }
        apply IH; try done; [simpl; lia|by apply StronglySorted_inv in Hl as [? _]|].
        by apply Forall_cons in Hnan as [_ ?].
      * apply F32_not_ge in Hxy; [|done..].
        destruct (Hstep y (x :: l) r) as [? ?].
        { apply Forall_app. split.
          - by apply score_ge_all.
          - by apply StronglySorted_inv in Hr as [_ ?]. }
        { intros z [Hz|Hz]%elem_of_app; apply elem_of_app; [by left|].
          right. by right. }
        { apply elem_of_app. right. by left. }
        apply IH; try done; [simpl; lia|by apply StronglySorted_inv in Hr as [? _]|].
        apply Forall_app in Hnan as [? [_ ?]%Forall_cons].
        by apply Forall_app.
Qed.

Lemma merge_sorted leftResult rightResult out :
  StronglySorted score_ge leftResult ->
  StronglySorted score_ge rightResult ->
  Forall (fun a => is_nan (Score a) = false) (leftResult ++ rightResult) ->
  merge leftResult rightResult = Some out ->
  StronglySorted score_ge out.
Proof.
  intros Hl Hr Hnan. unfold merge.
  apply merge_loop_sorted; try done. constructor.
Qed.

(** ** The sequential loop *)

Lemma slices_Delete_last {A : Type} (s : list A) (last : nat) :
  length s = S last ->
  exists x, s = take last s ++ [x] /\
            slices_Delete s last (S last) = Some (take last s).
Proof.
  intros Hlen. unfold slices_Delete. rewrite Hlen.
  destruct (Nat.leb_spec last (S last)); [|lia].
  destruct (Nat.leb_spec (S last) (S last)); [|lia]. simpl.
  rewrite (drop_ge s (S last)) by lia. rewrite app_nil_r.
  destruct (lookup_lt_is_Some_2 s last) as [x Hx]; [lia|].
  exists x. split; [|done].
  rewrite <- (take_S_r s last x Hx), take_ge by lia. done.
Qed.

(** What one iteration does: nothing when the entry is no candidate, and
    nothing when the candidate would be inserted at the capacity;
    otherwise the candidate is inserted at the position [n] found by the
    binary search, after the last result was dropped when the list held
    [TopK] results. *)
Lemma leaf_step_inv m vector o (capacity : nat) results e results' :
  leaf_step m vector o capacity results e = Some results' ->
  match candidate m vector o e with
  | None => results' = results
  | Some qr =>
      exists n ok,
        BinarySearchFunc results qr (score_cmp m) = Some (n, ok) /\
        if n =? capacity then results' = results
        else exists base,
          n <= length base /\
          results' = take n base ++ qr :: drop n base /\
          if (Z.of_nat (length results) =? TopK o)%Z
          then exists last, results = base ++ [last]
          else base = results
  end.
Proof.
  unfold leaf_step, candidate.
  destruct (match Predicate o with Some p => negb (p e) | None => false end).
  { by intros [= <-]. }
  destruct (Distance m vector (Vector e)) as [score|]; simpl; [|done].
  destruct (F32.lt score (MinimumScore o)).
  { by intros [= <-]. }
  destruct (BinarySearchFunc results _ (score_cmp m)) as [[n ok]|] eqn:Hb;
    simpl; [|done].
  intros Hstep. exists n, ok. split; [done|].
  destruct (n =? capacity).
  { by injection Hstep as <-. }
  destruct (Z.of_nat (length results) =? TopK o)%Z.
  - destruct (length results) as [|last] eqn:Hlen; simpl in Hstep; [done|].
    destruct (slices_Delete_last results last Hlen) as (x & Hx & Hdel).
    rewrite Hdel in Hstep. simpl in Hstep. unfold slices_Insert in Hstep.
    destruct (Nat.leb_spec n (length (take last results))); [|done].
    injection Hstep as <-. exists (take last results).
    split; [done|]. split; [done|]. by exists x.
  - simpl in Hstep. unfold slices_Insert in Hstep.
    destruct (Nat.leb_spec n (length results)); [|done].
    injection Hstep as <-. by exists results.
Qed.

Lemma candidates_cons m vector o e es :
  candidates m vector o (e :: es) =
  match candidate m vector o e with
  | Some qr => qr :: candidates m vector o es
  | None => candidates m vector o es
  end.
Proof. done. Qed.

Lemma candidates_app m vector o es1 es2 :
  candidates m vector o (es1 ++ es2) =
  candidates m vector o es1 ++ candidates m vector o es2.
Proof. apply omap_app. Qed.

Lemma insert_Permutation {A : Type} (n : nat) (x : A) (l : list A) :
  take n l ++ x :: drop n l ≡ₚ x :: l.
Proof.
  rewrite <- Permutation_middle. by rewrite take_drop.
Qed.

(** The results gathered by the loop are candidates of the entries it
    went through, each taken at most once. *)
Lemma leaf_step_sub m vector o capacity results e results' seen :
  leaf_step m vector o capacity results e = Some results' ->
  results ⊆+ candidates m vector o seen ->
  results' ⊆+ candidates m vector o (seen ++ [e]).
Proof.
  intros Hstep%leaf_step_inv Hsub.
  rewrite candidates_app, candidates_cons. simpl.
  destruct (candidate m vector o e) as [qr|].
  2:{ subst results'. rewrite app_nil_r. done. }
  destruct Hstep as (n & ok & _ & Hn).
  destruct (n =? capacity).
  { subst results'. by apply submseteq_inserts_r. }
  destruct Hn as (base & _ & -> & Hbase).
  rewrite insert_Permutation.
  rewrite <- Permutation_cons_append. apply submseteq_skip.
  destruct (Z.of_nat (length results) =? TopK o)%Z.
  - destruct Hbase as (last & ->). etrans; [|exact Hsub].
    by apply submseteq_inserts_r.
  - by subst base.
Qed.

Lemma leaf_loop_sub m vector o capacity es results rs seen :
  leaf_loop m vector o capacity es results = Some rs ->
  results ⊆+ candidates m vector o seen ->
  rs ⊆+ candidates m vector o (seen ++ es).
Proof.
  revert results seen. induction es as [|e es IH]; intros results seen; simpl.
  - intros [= <-]. by rewrite app_nil_r.
  - destruct (leaf_step m vector o capacity results e) as [results'|] eqn:He;
      simpl; [|done].
    intros Hloop Hsub.
    rewrite (cons_middle e seen es), app_assoc.
    eapply IH; [done|]. by eapply leaf_step_sub.
Qed.

(** [makeslice] returns on the capacities from zero to the largest one
    that fits [maxAlloc], and on no other. *)
Lemma makeslice_Some (size capacity : Z) (n : nat) :
  makeslice size capacity = Some n <->
  (0 <= capacity)%Z /\ (size * capacity <= maxAlloc)%Z /\
  n = Z.to_nat capacity.
Proof.
  unfold makeslice.
  destruct (Z.ltb_spec capacity 0), (Z.ltb_spec maxAlloc (size * capacity));
    simpl; split; try (intros [= <-]); try (intros (? & ? & ->)); try done;
    lia.
Qed.

Lemma leaf_inv m vector o es rs :
  leaf m es vector o = Some rs ->
  ((0 <= TopK o)%Z /\ (QueryResult_size * TopK o <= maxAlloc)%Z) /\
  leaf_loop m vector o (Z.to_nat (TopK o)) es [] = Some rs.
Proof.
  unfold leaf.
  destruct (makeslice QueryResult_size (TopK o)) as [capacity|] eqn:Hmake;
    simpl; [|done].
  by apply makeslice_Some in Hmake as (? & ? & ->).
Qed.

Lemma leaf_sub m vector o es rs :
  leaf m es vector o = Some rs -> rs ⊆+ candidates m vector o es.
Proof.
  intros [_ Hloop]%leaf_inv. by apply (leaf_loop_sub _ _ _ _ _ _ _ [] Hloop).
Qed.

(** The loop never holds more than [TopK] results. *)
Lemma leaf_step_length m vector o results e results' :
  leaf_step m vector o (Z.to_nat (TopK o)) results e = Some results' ->
  length results <= Z.to_nat (TopK o) ->
  length results' <= Z.to_nat (TopK o).
Proof.
  intros Hstep%leaf_step_inv Hlen.
  destruct (candidate m vector o e) as [qr|]; [|by subst].
  destruct Hstep as (n & ok & Hb & Hn).
  destruct (BinarySearchFunc_total results qr (score_cmp m))
    as (n' & ok' & Hb' & Hn').
  rewrite Hb in Hb'. injection Hb' as <- <-.
  destruct (Nat.eqb_spec n (Z.to_nat (TopK o))); [by subst|].
  destruct Hn as (base & _ & -> & Hbase).
  rewrite insert_Permutation. simpl.
  destruct (Z.eqb_spec (Z.of_nat (length results)) (TopK o)).
  - destruct Hbase as (last & ->). rewrite length_app in Hlen.
    simpl in Hlen. lia.
  - subst base. lia.
Qed.

Lemma leaf_loop_length m vector o es results rs :
  leaf_loop m vector o (Z.to_nat (TopK o)) es results = Some rs ->
  length results <= Z.to_nat (TopK o) ->
  length rs <= Z.to_nat (TopK o).
Proof.
  revert results. induction es as [|e es IH]; intros results; simpl.
  - by intros [= <-].
  - destruct (leaf_step m vector o _ results e) as [results'|] eqn:He;
      simpl; [|done].
    intros Hloop Hlen. eapply IH; [done|]. by eapply leaf_step_length.
Qed.

Lemma leaf_length m vector o es rs :
  leaf m es vector o = Some rs -> length rs <= Z.to_nat (TopK o).
Proof.
  intros [_ Hloop]%leaf_inv.
  apply (leaf_loop_length _ _ _ _ _ _ Hloop). simpl. lia.
Qed.

(** While there is room for every entry, the loop keeps every
    candidate. *)
Lemma leaf_step_roomy m vector o results e results' :
  leaf_step m vector o (Z.to_nat (TopK o)) results e = Some results' ->
  length results < Z.to_nat (TopK o) ->
  results' ≡ₚ results ++ candidates m vector o [e].
Proof.
  intros Hstep%leaf_step_inv Hlen. rewrite candidates_cons. simpl.
  destruct (candidate m vector o e) as [qr|].
  2:{ subst. by rewrite app_nil_r. }
  destruct Hstep as (n & ok & Hb & Hn).
  destruct (BinarySearchFunc_total results qr (score_cmp m))
    as (n' & ok' & Hb' & Hn').
  rewrite Hb in Hb'. injection Hb' as <- <-.
  destruct (Nat.eqb_spec n (Z.to_nat (TopK o))); [lia|].
  destruct Hn as (base & _ & -> & Hbase).
  destruct (Z.eqb_spec (Z.of_nat (length results)) (TopK o)); [lia|].
  subst base. rewrite insert_Permutation. apply Permutation_cons_append.
Qed.

Lemma leaf_loop_roomy m vector o es results rs :
  leaf_loop m vector o (Z.to_nat (TopK o)) es results = Some rs ->
  length results + length es <= Z.to_nat (TopK o) ->
  length results <= length rs /\
  rs ≡ₚ results ++ candidates m vector o es.
Proof.
  revert results. induction es as [|e es IH]; intros results; simpl.
  - intros [= <-] _. by rewrite app_nil_r.
  - destruct (leaf_step m vector o _ results e) as [results'|] eqn:He;
      simpl; [|done].
    intros Hloop Hlen.
    pose proof (leaf_step_roomy _ _ _ _ _ _ He) as Hperm.
    pose proof (leaf_step_inv _ _ _ _ _ _ _ He) as Hinv.
    assert (length results' <= S (length results)) as Hle.
    { rewrite Hperm by lia. rewrite length_app, candidates_cons. simpl.
      destruct (candidate m vector o e); simpl; lia. }
    assert (length results <= length results') as Hge.
    { rewrite Hperm by lia. rewrite length_app. lia. }
    destruct (IH results' Hloop) as [? Hrs]; [lia|].
    split; [lia|].
    rewrite Hrs, Hperm by lia.
    rewrite <- app_assoc, <- candidates_app. done.
Qed.

(** With [BiggerIsCloser] false, the elements that the comparison of
    the loop puts before a result are those of greater score. *)
Lemma precedes_score_cmp m qr a :
  BiggerIsCloser m = false ->
  precedes qr (score_cmp m) a = F32.gt (Score a) (Score qr).
Proof.
  intros Hm. unfold precedes, score_cmp. rewrite Hm.
  destruct (F32.gt (Score a) (Score qr)) eqn:Hgt.
  - by rewrite (F32_gt_not_lt _ _ Hgt).
  - by destruct (F32.lt (Score a) (Score qr)).
Qed.

(** With [BiggerIsCloser] false and no NaN among the scores, an
    iteration keeps the results in descending order of score. *)
Lemma leaf_step_sorted m vector o capacity results e results' :
  BiggerIsCloser m = false ->
  leaf_step m vector o capacity results e = Some results' ->
  StronglySorted score_ge results ->
  Forall (fun a => is_nan (Score a) = false) results ->
  (forall qr, candidate m vector o e = Some qr -> is_nan (Score qr) = false) ->
  StronglySorted score_ge results'.
Proof.
  intros Hm Hstep%leaf_step_inv Hs Hnan Hqr.
  destruct (candidate m vector o e) as [qr|]; [|by subst].
  specialize (Hqr qr eq_refl).
  destruct Hstep as (n & ok & Hb & Hn).
  destruct (n =? capacity); [by subst|].
  destruct Hn as (base & Hnb & -> & Hbase).
  apply BinarySearchFunc_partition in Hb as (_ & Hlo & Hhi).
  2:{ intros a b ea eb Hab Ha Hb'. rewrite !precedes_score_cmp by done.
      destruct (decide (a = b)) as [->|]; [congruence|].
      apply F32_ge_gt_trans.
      apply (StronglySorted_lookup_lt score_ge results a b); [done|lia|done..]. }
  assert (exists tail, results = base ++ tail) as [tail ->].
  { destruct (Z.of_nat (length results) =? TopK o)%Z.
    - destruct Hbase as [last ->]. by exists [last].
    - subst base. exists []. by rewrite app_nil_r. }
  apply StronglySorted_insert.
  - by apply StronglySorted_app_1_l in Hs.
  - apply Forall_lookup. intros k a [Ha Hk]%lookup_take_Some.
    apply F32_gt_ge. rewrite <- (precedes_score_cmp m) by done.
    apply (Hlo k a Hk). by apply lookup_app_l_Some.
  - apply Forall_lookup. intros k a Ha. rewrite lookup_drop in Ha.
    apply (lookup_app_l_Some _ tail) in Ha.
    apply F32_ge_total; [|done|].
    + by apply (proj1 (Forall_lookup _ _) Hnan _ _ Ha).
    + rewrite <- (precedes_score_cmp m) by done.
      apply (Hhi (n + k) a); [lia|done].
Qed.

Lemma leaf_loop_sorted m vector o capacity es results rs seen :
  BiggerIsCloser m = false ->
  Forall (fun a => is_nan (Score a) = false)
    (candidates m vector o (seen ++ es)) ->
  leaf_loop m vector o capacity es results = Some rs ->
  results ⊆+ candidates m vector o seen ->
  StronglySorted score_ge results ->
  StronglySorted score_ge rs.
Proof.
  intros Hm. revert results seen.
  induction es as [|e es IH]; intros results seen Hnan; simpl.
  - by intros [= <-].
  - destruct (leaf_step m vector o capacity results e) as [results'|] eqn:He;
      simpl; [|done].
    intros Hloop Hsub Hs.
    rewrite (cons_middle e seen es), app_assoc in Hnan.
    apply (IH results' (seen ++ [e])); [done..| |].
    + by eapply leaf_step_sub.
    + rewrite candidates_app in Hnan. apply Forall_app in Hnan as [Hnan _].
      rewrite candidates_app in Hnan. apply Forall_app in Hnan as [H1 H2].
      eapply leaf_step_sorted; [done..| |].
      * apply Forall_forall. intros a Ha.
        apply (proj1 (Forall_forall _ _) H1).
        by apply (elem_of_submseteq results).
      * intros qr Hc. rewrite candidates_cons, Hc in H2.
        by apply Forall_cons in H2 as [? _].
Qed.

Lemma leaf_sorted m vector o es rs :
  BiggerIsCloser m = false ->
  Forall (fun a => is_nan (Score a) = false) (candidates m vector o es) ->
  leaf m es vector o = Some rs ->
  StronglySorted score_ge rs.
Proof.
  intros Hm Hnan [_ Hloop]%leaf_inv.
  apply (leaf_loop_sorted m vector o (Z.to_nat (TopK o)) es [] rs []);
    try done. constructor.
Qed.

(** An iteration returns when the call of the metric does. *)
Lemma leaf_step_total m vector o results e :
  scorable m vector o e ->
  exists results',
    leaf_step m vector o (Z.to_nat (TopK o)) results e = Some results'.
Proof.
  unfold scorable, leaf_step. intros Hsc.
  destruct (match Predicate o with Some p => negb (p e) | None => false end)
    eqn:Hp; [eauto|].
  destruct Hsc as [score ->].
  { destruct (Predicate o); [|done]. by apply negb_false_iff in Hp. }
  simpl. destruct (F32.lt score (MinimumScore o)); [eauto|].
  destruct (BinarySearchFunc_total results
              {| Score := score; Result_Entry := e |} (score_cmp m))
    as (n & ok & -> & Hn). simpl.
  destruct (Nat.eqb_spec n (Z.to_nat (TopK o))); [eauto|].
  destruct (Z.eqb_spec (Z.of_nat (length results)) (TopK o)).
  - destruct (length results) as [|last] eqn:Hlen; [lia|].
    destruct (slices_Delete_last results last Hlen) as (x & Hx & ->).
    simpl. unfold slices_Insert.
    destruct (Nat.leb_spec n (length (take last results))) as [|Hgt];
      [eauto|].
    rewrite length_take in Hgt. lia.
  - simpl. unfold slices_Insert.
    destruct (Nat.leb_spec n (length results)); [eauto|lia].
Qed.

Lemma leaf_loop_total m vector o es results :
  Forall (scorable m vector o) es ->
  exists rs, leaf_loop m vector o (Z.to_nat (TopK o)) es results = Some rs.
Proof.
  intros Hes. revert results.
  induction Hes as [|e es He _ IH]; intros results; simpl; [eauto|].
  destruct (leaf_step_total m vector o results e He) as [results' ->].
  apply IH.
Qed.

(** The sequential part returns when [TopK] is a capacity that
    [makeslice] accepts and no call of the metric panics. *)
Lemma leaf_total m vector o es :
  (0 <= TopK o)%Z -> (QueryResult_size * TopK o <= maxAlloc)%Z ->
  Forall (scorable m vector o) es ->
  exists rs, leaf m es vector o = Some rs.
Proof.
  intros HK Hmax Hes. unfold leaf.
  rewrite (proj2 (makeslice_Some _ _ _) (conj HK (conj Hmax eq_refl))).
  by apply leaf_loop_total.
Qed.

Lemma leaf_roomy m vector o es rs :
  leaf m es vector o = Some rs ->
  length es <= Z.to_nat (TopK o) ->
  rs ≡ₚ candidates m vector o es.
Proof.
  intros [_ Hloop]%leaf_inv Hlen.
  by destruct (leaf_loop_roomy _ _ _ _ _ _ Hloop) as [_ ?].
Qed.

(** ** The recursion of [querySlice] *)

Lemma querySlice_at_unfold (t fuel : nat) m es vector o :
  querySlice_at t fuel m es vector o =
  if t <? length es then
    match fuel with
    | O => None
    | S fuel' =>
        leftResult ←
          querySlice_at t fuel' m (take (length es / 2) es) vector o;
        rightResult ←
          querySlice_at t fuel' m (drop (length es / 2) es) vector o;
        merge leftResult rightResult
    end
  else leaf m es vector o.
Proof. by destruct fuel. Qed.

(** A property of the results of [querySlice] holds as soon as the
    sequential part establishes it and the merge keeps it. *)
Lemma querySlice_at_ind m vector o
    (P : list (Entry Meta) -> list (QueryResult Meta) -> Prop) :
  (forall es rs, leaf m es vector o = Some rs -> P es rs) ->
  (forall es leftResult rightResult rs,
     P (take (length es / 2) es) leftResult ->
     P (drop (length es / 2) es) rightResult ->
     merge leftResult rightResult = Some rs -> P es rs) ->
  forall t fuel es rs,
    querySlice_at t fuel m es vector o = Some rs -> P es rs.
Proof.
  intros Hleaf Hmerge t fuel.
  induction fuel as [|fuel IH]; intros es rs;
    rewrite querySlice_at_unfold; destruct (t <? length es); try done;
    try apply Hleaf.
  destruct (querySlice_at t fuel m (take _ es) vector o) as [l|] eqn:Hl;
    simpl; [|done].
  destruct (querySlice_at t fuel m (drop _ es) vector o) as [r|] eqn:Hr;
    simpl; [|done].
  intros Hrs. eapply Hmerge; eauto.
Qed.

(** The recursion ends within [length es] levels: more fuel changes
    nothing. *)
Lemma querySlice_at_fuel (t fuel1 fuel2 : nat) m es vector o :
  1 <= t -> length es <= fuel1 -> length es <= fuel2 ->
  querySlice_at t fuel1 m es vector o = querySlice_at t fuel2 m es vector o.
Proof.
  intros Ht. revert fuel2 es.
  induction fuel1 as [|fuel1 IH]; intros fuel2 es H1 H2;
    rewrite !(querySlice_at_unfold t _ m es);
    destruct (Nat.ltb_spec t (length es)) as [Hlt|]; try done; [lia|].
  destruct fuel2 as [|fuel2]; [lia|].
  pose proof (half_lt (length es)) as Hhalf.
  rewrite (IH fuel2 (take _ es)), (IH fuel2 (drop _ es));
    rewrite ?length_take, ?length_drop; first done; lia.
Qed.

(** [querySlice] returns when [TopK] is a capacity that [makeslice]
    accepts and no call of the metric panics. *)
Lemma querySlice_at_total (t fuel : nat) m es vector o :
  1 <= t -> length es <= fuel ->
  (0 <= TopK o)%Z -> (QueryResult_size * TopK o <= maxAlloc)%Z ->
  Forall (scorable m vector o) es ->
  exists rs, querySlice_at t fuel m es vector o = Some rs.
Proof.
  intros Ht Hfuel HK Hmax. revert es Hfuel.
  induction fuel as [|fuel IH]; intros es Hfuel Hes;
    rewrite querySlice_at_unfold;
    destruct (Nat.ltb_spec t (length es)) as [Hlt|];
    try (by apply leaf_total); [lia|].
  pose proof (half_lt (length es)) as Hhalf.
  destruct (IH (take (length es / 2) es)) as [l ->];
    [rewrite length_take; lia|by apply Forall_take|].
  destruct (IH (drop (length es / 2) es)) as [r ->];
    [rewrite length_drop; lia|by apply Forall_drop|].
  simpl. destruct (merge_perm l r) as (out & -> & _). eauto.
Qed.

(** The results are candidates of the entries, each taken at most
    once. *)
Lemma querySlice_at_sub (t fuel : nat) m es vector o rs :
  querySlice_at t fuel m es vector o = Some rs ->
  rs ⊆+ candidates m vector o es.
Proof.
  revert t fuel es rs.
  apply (querySlice_at_ind m vector o
           (fun es rs => rs ⊆+ candidates m vector o es)).
  - intros es rs. apply leaf_sub.
  - intros es l r rs Hl Hr Hrs.
    destruct (merge_perm l r) as (out & Hout & Hperm).
    rewrite Hrs in Hout. injection Hout as <-.
    rewrite Hperm, <- (take_drop (length es / 2) es) at 1.
    rewrite candidates_app. by apply submseteq_app.
Qed.

(** While [TopK] leaves room for every entry, the results are all the
    candidates. *)
Lemma querySlice_at_roomy (t fuel : nat) m es vector o rs :
  querySlice_at t fuel m es vector o = Some rs ->
  length es <= Z.to_nat (TopK o) ->
  rs ≡ₚ candidates m vector o es.
Proof.
  revert t fuel es rs.
  apply (querySlice_at_ind m vector o
           (fun es rs => length es <= Z.to_nat (TopK o) ->
                         rs ≡ₚ candidates m vector o es)).
  - intros es rs. apply leaf_roomy.
  - intros es l r rs Hl Hr Hrs Hlen.
    destruct (merge_perm l r) as (out & Hout & Hperm).
    rewrite Hrs in Hout. injection Hout as <-.
    rewrite Hperm, <- (take_drop (length es / 2) es) at 1.
    rewrite candidates_app.
    rewrite Hl, Hr; [done|rewrite length_drop; lia|rewrite length_take; lia].
Qed.

(** With [BiggerIsCloser] false and no NaN among the scores of the
    candidates, the results are in descending order of score. *)
Lemma querySlice_at_sorted (t fuel : nat) m es vector o rs :
  BiggerIsCloser m = false ->
  querySlice_at t fuel m es vector o = Some rs ->
  Forall (fun a => is_nan (Score a) = false) (candidates m vector o es) ->
  StronglySorted score_ge rs.
Proof.
  intros Hm Hq.
  cut (rs ⊆+ candidates m vector o es /\
       (Forall (fun a => is_nan (Score a) = false) (candidates m vector o es) ->
        StronglySorted score_ge rs)); [tauto|].
  revert t fuel es rs Hq.
  apply (querySlice_at_ind m vector o
           (fun es rs =>
              rs ⊆+ candidates m vector o es /\
              (Forall (fun a => is_nan (Score a) = false)
                 (candidates m vector o es) ->
               StronglySorted score_ge rs))).
  - intros es rs Hleaf. split; [by apply leaf_sub|].
    intros Hnan. by eapply leaf_sorted.
  - intros es l r rs [Hlsub Hl] [Hrsub Hr] Hrs.
    assert (l ++ r ⊆+ candidates m vector o es) as Hsub.
    { rewrite <- (take_drop (length es / 2) es) at 1.
      rewrite candidates_app. by apply submseteq_app. }
    destruct (merge_perm l r) as (out & Hout & Hperm).
    rewrite Hrs in Hout. injection Hout as <-.
    split; [by rewrite Hperm|].
    intros Hnan.
    rewrite <- (take_drop (length es / 2) es), candidates_app in Hnan.
    apply Forall_app in Hnan as [Hnan1 Hnan2].
    eapply merge_sorted; [by apply Hl|by apply Hr| |done].
    apply Forall_app. split; apply Forall_forall; intros a Ha.
    + apply (proj1 (Forall_forall _ _) Hnan1).
      by apply (elem_of_submseteq l).
    + apply (proj1 (Forall_forall _ _) Hnan2).
      by apply (elem_of_submseteq r).
Qed.

Lemma candidate_Some m vector o e qr :
  candidate m vector o e = Some qr ->
  Result_Entry qr = e /\
  (forall p, Predicate o = Some p -> p e = true) /\
  Distance m vector (Vector e) = Some (Score qr) /\
  F32.lt (Score qr) (MinimumScore o) = false.
Proof.
  unfold candidate.
  destruct (match Predicate o with Some p => negb (p e) | None => false end)
    eqn:Hp; [done|].
  destruct (Distance m vector (Vector e)) as [score|]; simpl; [|done].
  destruct (F32.lt score (MinimumScore o)) eqn:Hlt; [done|].
  intros [= <-]. simpl. split; [done|]. split; [|done].
  intros p Hpo. rewrite Hpo in Hp. by apply negb_false_iff in Hp.
Qed.

Lemma candidate_passes m vector o e score :
  match Predicate o with Some p => p e = true | None => True end ->
  Distance m vector (Vector e) = Some score ->
  F32.lt score (MinimumScore o) = false ->
  candidate m vector o e = Some {| Score := score; Result_Entry := e |}.
Proof.
  unfold candidate. intros Hp -> Hlt. simpl. rewrite Hlt.
  destruct (Predicate o) as [p|]; [|done]. by rewrite Hp.
Qed.

Lemma elem_of_candidates m vector o es qr :
  qr ∈ candidates m vector o es <->
  exists e, e ∈ es /\ candidate m vector o e = Some qr.
Proof. apply list_elem_of_omap. Qed.

Lemma candidates_length m vector o es :
  length (candidates m vector o es) <= length es.
Proof.
  induction es as [|e es IH]; [done|]. rewrite candidates_cons.
  destruct (candidate m vector o e); simpl; lia.
Qed.

Lemma candidates_rejected m vector o es (p : Entry Meta -> bool) :
  Predicate o = Some p -> (forall e, e ∈ es -> p e = false) ->
  candidates m vector o es = [].
Proof.
  intros Hp Hes. induction es as [|e es IH]; [done|].
  rewrite candidates_cons. unfold candidate at 1.
  rewrite Hp, (Hes e) by by left. simpl.
  apply IH. intros e' He'. apply Hes. by right.
Qed.

(** [Query] is [querySlice] on the entries of the store, at the threshold
    of the source and with fuel for the whole recursion. *)
Lemma Query_Query_at (db : VectorDB Meta) vector o :
  Query db vector o = Query_at threshold db vector o.
Proof. done. Qed.

(** [Query] returns a list when [TopK] is a capacity that [makeslice]
    accepts and the metric panics on no entry that the predicate lets
    through. *)
Lemma Query_at_total (t : nat) (db : VectorDB Meta) vector o :
  1 <= t -> (0 <= TopK o)%Z ->
  (QueryResult_size * TopK o <= maxAlloc)%Z ->
  Forall (scorable (distanceMetric db) vector o) (entries db) ->
  exists rs, Query_at t db vector o = Some rs.
Proof. intros. by apply querySlice_at_total. Qed.

(** On a store of at most [threshold] entries the number of results is
    at most [TopK] and at most the number of candidates. *)
Lemma Query_small_bound (db : VectorDB Meta) vector o rs :
  length (entries db) <= threshold ->
  Query db vector o = Some rs ->
  length rs <=
    Z.to_nat (TopK o) `min`
      length (candidates (distanceMetric db) vector o (entries db)).
Proof.
  intros Hlen. unfold Query, querySlice. rewrite querySlice_at_unfold.
  destruct (Nat.ltb_spec threshold (length (entries db))); [lia|].
  intros Hleaf. apply Nat.min_glb.
  - by eapply leaf_length.
  - by apply submseteq_length, leaf_sub.
Qed.

(** With [TopK] zero, no result is kept. *)
Lemma querySlice_at_zero (t fuel : nat) m es vector o rs :
  TopK o = 0%Z ->
  querySlice_at t fuel m es vector o = Some rs -> rs = [].
Proof.
  intros HK. revert t fuel es rs.
  apply (querySlice_at_ind m vector o (fun _ rs => rs = [])).
  - intros es rs Hleaf%leaf_length. rewrite HK in Hleaf.
    destruct rs; [done|]. simpl in Hleaf. lia.
  - intros es l r rs -> ->. rewrite merge_nil. by intros [= <-].
Qed.
End QueryFacts.

(** ** The distance metrics on vectors of different lengths *)

Lemma DotProduct_loop_Some (b : list float32) (k : nat) (ak : list float32)
    (acc : float32) :
  k + length ak <= length b -> is_Some (DotProduct_loop b k ak acc).
Proof.
  revert k acc. induction ak as [|a_k ak IH]; intros k acc Hlen;
    cbn [DotProduct_loop].
  - eauto.
  - simpl in Hlen. destruct (b !! k) as [b_k|] eqn:Hb.
    + simpl. apply IH. lia.
    + apply lookup_ge_None in Hb. unfold float32 in *. lia.
Qed.

Lemma DotProduct_loop_None (b : list float32) (k : nat) (ak : list float32)
    (acc : float32) :
  k <= length b -> length b < k + length ak ->
  DotProduct_loop b k ak acc = None.
Proof.
  revert k acc. induction ak as [|a_k ak IH]; intros k acc Hk Hlen;
    cbn [DotProduct_loop].
  - simpl in Hlen. lia.
  - simpl in Hlen. destruct (b !! k) as [b_k|] eqn:Hb; [|done]. simpl.
    apply lookup_lt_Some in Hb. unfold float32 in *. apply IH; lia.
Qed.

Lemma CosineSimilarity_loop_Some (b : list float32) (k : nat)
    (ak : list float32) (d ma mb : float64) :
  k + length ak <= length b -> is_Some (CosineSimilarity_loop b k ak d ma mb).
Proof.
  revert k d ma mb. induction ak as [|a_k ak IH]; intros k d ma mb Hlen;
    cbn [CosineSimilarity_loop].
  - eauto.
  - simpl in Hlen. destruct (b !! k) as [b_k|] eqn:Hb.
    + simpl. apply IH. lia.
    + apply lookup_ge_None in Hb. unfold float32 in *. lia.
Qed.

Lemma CosineSimilarity_loop_None (b : list float32) (k : nat)
    (ak : list float32) (d ma mb : float64) :
  k <= length b -> length b < k + length ak ->
  CosineSimilarity_loop b k ak d ma mb = None.
Proof.
  revert k d ma mb.
  induction ak as [|a_k ak IH]; intros k d ma mb Hk Hlen;
    cbn [CosineSimilarity_loop].
  - simpl in Hlen. lia.
  - simpl in Hlen. destruct (b !! k) as [b_k|] eqn:Hb; [|done]. simpl.
    apply lookup_lt_Some in Hb. unfold float32 in *. apply IH; lia.
Qed.

(** Both metrics panic when the first vector is the longer one, and return
    a score, computed on the first [length a] components of [b], when it is
    the shorter one. *)
Lemma Distance_longer (a b : list float32) :
  length b < length a ->
  Distance DotProduct a b = None /\ Distance CosineSimilarity a b = None.
Proof.
  intros Hlen. simpl. unfold DotProduct_Distance, CosineSimilarity_Distance.
  rewrite DotProduct_loop_None, CosineSimilarity_loop_None by (simpl; lia).
  done.
Qed.

Lemma Distance_shorter (a b : list float32) :
  length a <= length b ->
  is_Some (Distance DotProduct a b) /\
  is_Some (Distance CosineSimilarity a b).
Proof.
  intros Hlen. simpl. unfold DotProduct_Distance, CosineSimilarity_Distance.
  split; [by apply DotProduct_loop_Some|].
  destruct (CosineSimilarity_loop_Some b 0 a F64.zero F64.zero F64.zero)
    as [[[d ma] mb] ->]; [simpl; lia|].
  simpl. eauto.
Qed.

(** * The store *)

(** C6. On a store whose entries are sorted by identifier, in ascending
    order and without duplicates, every sequence of [Upsert] and [Delete]
    operations runs without a panic, and after each operation of the
    sequence, that is after its first [k] operations for every [k], the
    entries are sorted by identifier in ascending order and no identifier
    occurs twice. *)
Theorem sort_invariant {Meta : Type} (db : VectorDB Meta)
    (ops : list (@Op Meta)) (k : nat) :
  sorted_by_ID (entries db) = true ->
  exists db', run_ops (take k ops) db = Some db' /\
    sorted_by_ID (entries db') = true /\
    NoDup (Entry_ID <$> entries db').
Proof.
  intros Hs%sorted_by_ID_spec.
  destruct (run_ops_sorted (take k ops) db Hs) as (db' & Hrun & Hs' & _).
  exists db'. split; [done|]. split.
  - by apply sorted_by_ID_spec.
  - by apply sorted_IDs_NoDup.
Qed.

Lemma sort_invariant_witness :
  sorted_by_ID (entries Examples.cosine_db) = true /\
  exists db',
    run_ops (take 5 Examples.some_ops) Examples.cosine_db = Some db' /\
    sorted_by_ID (entries db') = true /\
    NoDup (Entry_ID <$> entries db').
Proof.
  split; [reflexivity|].
  apply (sort_invariant Examples.cosine_db Examples.some_ops 5). reflexivity.
Defined.

(** An identifier of the initial store is found although no operation
    ever upserted it: here the store is made with the entries A, B and C
    and no operation is applied. *)
Lemma initial_entry_found :
  sorted_by_ID (entries Examples.cosine_db) = true /\
  run_ops [] Examples.cosine_db = Some Examples.cosine_db /\
  forallb (fun op => negb (upserts "A"%string op)) (@nil (@Op Examples.Meta)) = true /\
  Get "A"%string Examples.cosine_db = Some (Some Examples.entryA, true).
Proof. repeat split; reflexivity. Qed.

(** C7, amended. On a sorted store without duplicates, every sequence of
    [Upsert] and [Delete] operations runs without a panic, and on the
    store it leaves:
    - for an identifier that was upserted and neither upserted again nor
      deleted afterwards, [Get] returns the entry of this last [Upsert]
      with the flag [true];
    - for an identifier that was deleted and not upserted afterwards,
      [Get] returns no entry and the flag [false];
    - for an identifier that the initial store does not hold and that was
      never upserted, [Get] returns no entry and the flag [false];
    - for an identifier that no operation names, [Get] returns what it
      returns on the initial store, so an identifier of the initial store
      is still found with its initial entry. *)
Theorem lookup_correctness {Meta : Type} (db : VectorDB Meta)
    (ops : list (@Op Meta)) :
  sorted_by_ID (entries db) = true ->
  exists db', run_ops ops db = Some db' /\
    (forall ops1 entry ops2,
       ops = ops1 ++ OpUpsert entry :: ops2 ->
       forallb (fun op => negb (touches (Entry_ID entry) op)) ops2 = true ->
       Get (Entry_ID entry) db' = Some (Some entry, true)) /\
    (forall ops1 id ops2,
       ops = ops1 ++ OpDelete id :: ops2 ->
       forallb (fun op => negb (upserts id op)) ops2 = true ->
       Get id db' = Some (None, false)) /\
    (forall id,
       Forall (fun e => Entry_ID e <> id) (entries db) ->
       forallb (fun op => negb (upserts id op)) ops = true ->
       Get id db' = Some (None, false)) /\
    (forall id,
       forallb (fun op => negb (touches id op)) ops = true ->
       Get id db' = Get id db).
Proof.
  intros Hs%sorted_by_ID_spec.
  destruct (run_ops_sorted ops db Hs) as (db' & Hrun & Hs' & Hheld).
  exists db'. split; [done|].
  repeat split.
  - intros ops1 entry ops2 -> Hops2.
    rewrite (Get_sorted _ _ Hs'), Hheld.
    rewrite (written_app _ ops1 (OpUpsert entry :: ops2)). simpl.
    rewrite String.eqb_refl, written_untouched by done. done.
  - intros ops1 id ops2 -> Hops2.
    rewrite (Get_sorted _ _ Hs'), Hheld.
    rewrite (written_app _ ops1 (OpDelete id :: ops2)). simpl.
    rewrite String.eqb_refl, written_not_upserted by done. done.
  - intros id Hid Hops.
    rewrite (Get_sorted _ _ Hs'), Hheld.
    rewrite (entry_of_other id (entries db) Hid).
    rewrite written_not_upserted by done. done.
  - intros id Hops.
    rewrite (Get_sorted _ _ Hs'), (Get_sorted _ _ Hs), Hheld.
    by rewrite written_untouched.
Qed.

Lemma lookup_correctness_witness :
  sorted_by_ID (entries Examples.cosine_db) = true /\
  exists db',
    run_ops Examples.some_ops Examples.cosine_db = Some db' /\
    Get "B"%string db' = Some (Some Examples.entryB', true) /\
    Get "C"%string db' = Some (None, false) /\
    Get "E"%string db' = Some (None, false).
Proof.
  split; [reflexivity|].
  destruct (lookup_correctness Examples.cosine_db Examples.some_ops eq_refl)
    as (db' & Hrun & Hupsert & Hdelete & Hnever & _).
  exists db'. split; [exact Hrun|]. split; [|split].
  - apply (Hupsert
             [OpUpsert Examples.entryC; OpUpsert Examples.entryB;
              OpDelete "C"%string; OpUpsert Examples.entryA]
             Examples.entryB' [OpDelete "D"%string]); reflexivity.
  - apply (Hdelete [OpUpsert Examples.entryC; OpUpsert Examples.entryB] "C"%string
             [OpUpsert Examples.entryA; OpUpsert Examples.entryB';
              OpDelete "D"%string]); reflexivity.
  - apply (Hnever "E"%string); [|reflexivity].
    repeat constructor; discriminate.
Defined.

(** C9. On a sorted store without duplicates, [Delete] of an identifier
    that no entry of the store bears returns without a panic and leaves
    the store as it was: the same entries, in the same number and in the
    same order. *)
Theorem Delete_absent {Meta : Type} (db : VectorDB Meta) (id : ID) :
  sorted_by_ID (entries db) = true ->
  Forall (fun e => Entry_ID e <> id) (entries db) ->
  Delete id db = Some db.
Proof.
  intros Hs%sorted_by_ID_spec Hid.
  destruct (search_sorted (entries db) id Hs)
    as (n & ok & l1 & l2 & Hsearch & Hes & _ & _ & Hok).
  unfold Delete, search. rewrite Hsearch. simpl.
  destruct ok; [|done].
  destruct Hok as (e & l2' & -> & He & _).
  rewrite Hes in Hid. apply Forall_app in Hid as [_ [Hne _]%Forall_cons].
  done.
Qed.

Lemma Delete_absent_witness :
  sorted_by_ID (entries Examples.cosine_db) = true /\
  Forall (fun e => Entry_ID e <> "D"%string) (entries Examples.cosine_db) /\
  Delete "D"%string Examples.cosine_db = Some Examples.cosine_db.
Proof.
  assert (Forall (fun e : Entry Examples.Meta => Entry_ID e <> "D"%string)
            (entries Examples.cosine_db)) as Hid.
  { repeat constructor; discriminate. }
  split; [reflexivity|]. split; [exact Hid|].
  apply (Delete_absent Examples.cosine_db "D"%string eq_refl Hid).
Defined.

(** * The query engine *)

(** With the cosine metric, whose [BiggerIsCloser] is false, the results
    come from the high score to the low score: the entries A, C and B with
    the scores 1, 0.707 and 0. The first result is worse than the second
    one in the direction that [BiggerIsCloser] declares. And a result whose
    score is a NaN stands before a result of score 1 although it compares
    with it in no direction. *)
Lemma cosine_results_descend :
  (Query Examples.cosine_db (Examples.vec [1; 0]%Z)
     (Examples.options 3 (F32.of_Z 0))
   = Some [ {| Score := F32.of_Z 1; Result_Entry := Examples.entryA |};
            {| Score := Examples.cos45; Result_Entry := Examples.entryC |};
            {| Score := F32.of_Z 0; Result_Entry := Examples.entryB |} ] /\
   BiggerIsCloser (distanceMetric Examples.cosine_db) = false /\
   spec_no_worse (distanceMetric Examples.cosine_db)
     (F32.of_Z 1) Examples.cos45 = false) /\
  (Query Examples.null_db (Examples.vec [1; 0]%Z)
     (Examples.options 2 (F32.of_Z 0))
   = Some [ {| Score := S754_nan; Result_Entry := Examples.entryZ |};
            {| Score := F32.of_Z 1; Result_Entry := Examples.entryA |} ] /\
   F32.ge S754_nan (F32.of_Z 1) = false /\
   F32.ge (F32.of_Z 1) S754_nan = false).
Proof. repeat split; vm_compute; reflexivity. Qed.

(** With the dot product, whose [BiggerIsCloser] is true, the sequential
    loop keeps its list from the low score to the high score and, when the
    list is full, drops its last result, the one of highest score: of the
    entries A, B and C, of scores 1, 0 and 1, a query with [TopK] two
    returns B and then C. *)
Lemma dot_product_results_ascend :
  Query Examples.dot_db (Examples.vec [1; 0]%Z)
    (Examples.options 2 (F32.of_Z 0))
  = Some [ {| Score := F32.of_Z 0; Result_Entry := Examples.entryB |};
           {| Score := F32.of_Z 1; Result_Entry := Examples.entryC |} ].
Proof. vm_compute. reflexivity. Qed.

(** C1, amended. When [BiggerIsCloser] of the metric is false and no
    candidate has a NaN for score, the scores of the list that [Query]
    returns are non-increasing: for every adjacent pair of results the
    score of the earlier one is greater than or equal to the score of the
    later one. In particular the merge of two partial lists begins with
    the head of the left list when its score is greater than or equal to
    that of the head of the right list, and with the head of the right
    list otherwise. *)
Theorem Query_descending {Meta : Type} (db : VectorDB Meta)
    (vector : list float32) (o : QueryOptions Meta)
    (rs : list (QueryResult Meta)) :
  BiggerIsCloser (distanceMetric db) = false ->
  Forall (fun a => is_nan (Score a) = false)
    (candidates (distanceMetric db) vector o (entries db)) ->
  Query db vector o = Some rs ->
  (forall i a b, rs !! i = Some a -> rs !! S i = Some b ->
     F32.ge (Score a) (Score b) = true) /\
  (forall (l r : QueryResult Meta) leftResult rightResult out,
     merge (l :: leftResult) (r :: rightResult) = Some out ->
     head out = Some (if F32.ge (Score l) (Score r) then l else r)).
Proof.
  intros Hm Hnan Hq. split.
  - intros i a b Ha Hb.
    apply (StronglySorted_lookup_lt score_ge rs i (S i)); [|lia|done..].
    by eapply querySlice_at_sorted.
  - intros l r leftResult rightResult out. apply merge_head.
Qed.

Lemma Query_descending_witness :
  BiggerIsCloser (distanceMetric Examples.cosine_db) = false /\
  Forall (fun a => is_nan (Score a) = false)
    (candidates (distanceMetric Examples.cosine_db) (Examples.vec [1; 0]%Z)
       (Examples.options 2 (F32.of_Z 0)) (entries Examples.cosine_db)) /\
  exists rs,
    Query Examples.cosine_db (Examples.vec [1; 0]%Z)
      (Examples.options 2 (F32.of_Z 0)) = Some rs /\
    forall i a b, rs !! i = Some a -> rs !! S i = Some b ->
      F32.ge (Score a) (Score b) = true.
Proof.
  assert (Forall (fun a : QueryResult Examples.Meta => is_nan (Score a) = false)
    (candidates (distanceMetric Examples.cosine_db) (Examples.vec [1; 0]%Z)
       (Examples.options 2 (F32.of_Z 0)) (entries Examples.cosine_db)))
    as Hnan.
  { vm_compute. repeat constructor. }
  split; [reflexivity|]. split; [exact Hnan|].
  eexists. split; [vm_compute; reflexivity|].
  apply (Query_descending Examples.cosine_db (Examples.vec [1; 0]%Z)
           (Examples.options 2 (F32.of_Z 0)) _ eq_refl Hnan).
  vm_compute. reflexivity.
Defined.

(** C2. On the store of 101 entries, whose entries are those that the
    101 upserts of [big_ops] leave in the empty store, with [TopK] one and
    every entry a candidate, [Query] returns two results: each half of the
    store contributes its best result and the merge keeps both. *)
Theorem Query_exceeds_TopK :
  entries <$> run_ops Examples.big_ops Examples.empty_db
    = Some (entries Examples.big_db) /\
  exists rs,
    Query Examples.big_db (Examples.vec [1]%Z)
      (Examples.options 1 (F32.of_Z 0)) = Some rs /\
    length rs = 2 /\
    Z.to_nat (TopK (Examples.options 1 (F32.of_Z 0))) `min`
      length (candidates (distanceMetric Examples.big_db)
                (Examples.vec [1]%Z) (Examples.options 1 (F32.of_Z 0))
                (entries Examples.big_db)) = 1.
Proof.
  split; [by vm_compute|]. eexists. split; [vm_compute; reflexivity|].
  by vm_compute.
Qed.

(** With the cosine metric and the minimum score 0.5, the entry A, of
    score 1, is returned although its score is farther than the minimum in
    the direction that [BiggerIsCloser] declares, and the entry B, of
    score 0, is not returned although its score is closer than the
    minimum in this direction. *)
Lemma cutoff_ignores_direction :
  Query Examples.cosine_db (Examples.vec [1; 0]%Z)
    (Examples.options 3 (F32.of_halves 1))
  = Some [ {| Score := F32.of_Z 1; Result_Entry := Examples.entryA |};
           {| Score := Examples.cos45; Result_Entry := Examples.entryC |} ] /\
  spec_passes_cutoff (distanceMetric Examples.cosine_db) (F32.of_Z 1)
    (F32.of_halves 1) = false /\
  Distance (distanceMetric Examples.cosine_db) (Examples.vec [1; 0]%Z)
    (Vector Examples.entryB) = Some (F32.of_Z 0) /\
  spec_passes_cutoff (distanceMetric Examples.cosine_db) (F32.of_Z 0)
    (F32.of_halves 1) = true.
Proof. split; [|split; [|split]]; vm_compute; reflexivity. Qed.

(** C3, amended. The minimum score is a numeric lower bound, whatever
    [BiggerIsCloser] of the metric: no result that [Query] returns has a
    score below [MinimumScore], and when [TopK] leaves room for every
    entry of the store, an entry that the predicate accepts is returned
    with its score exactly when this score is not below [MinimumScore].
    The bound is inclusive. *)
Theorem cutoff_numeric {Meta : Type} (db : VectorDB Meta)
    (vector : list float32) (o : QueryOptions Meta)
    (rs : list (QueryResult Meta)) :
  Query db vector o = Some rs ->
  (forall r, r ∈ rs -> F32.lt (Score r) (MinimumScore o) = false) /\
  (length (entries db) <= Z.to_nat (TopK o) ->
   forall e score,
     e ∈ entries db ->
     match Predicate o with Some p => p e = true | None => True end ->
     Distance (distanceMetric db) vector (Vector e) = Some score ->
     ({| Score := score; Result_Entry := e |} ∈ rs <->
      F32.lt score (MinimumScore o) = false)).
Proof.
  unfold Query, querySlice. intros Hq. split.
  - intros r Hr. pose proof (querySlice_at_sub _ _ _ _ _ _ _ Hq) as Hc.
    apply (elem_of_submseteq _ _ _ Hr) in Hc.
    apply elem_of_candidates in Hc as (e & _ & Hc).
    by apply candidate_Some in Hc as (_ & _ & _ & ?).
  - intros Hlen e score He Hp Hd.
    rewrite (querySlice_at_roomy _ _ _ _ _ _ _ Hq Hlen).
    rewrite elem_of_candidates. split.
    + intros (e' & _ & Hc). by apply candidate_Some in Hc as (_ & _ & _ & ?).
    + intros Hlt. exists e. split; [done|]. by apply candidate_passes.
Qed.

Lemma cutoff_numeric_witness :
  exists rs,
    Query Examples.cosine_db (Examples.vec [1; 0]%Z)
      (Examples.options 3 (F32.of_halves 1)) = Some rs /\
    (forall r, r ∈ rs ->
       F32.lt (Score r) (MinimumScore (Examples.options 3 (F32.of_halves 1)))
       = false) /\
    (length (entries Examples.cosine_db) <=
       Z.to_nat (TopK (Examples.options 3 (F32.of_halves 1))) ->
     forall e score,
       e ∈ entries Examples.cosine_db ->
       match Predicate (Examples.options 3 (F32.of_halves 1)) with
       | Some p => p e = true
       | None => True
       end ->
       Distance (distanceMetric Examples.cosine_db) (Examples.vec [1; 0]%Z)
         (Vector e) = Some score ->
       ({| Score := score; Result_Entry := e |} ∈ rs <->
        F32.lt score (MinimumScore (Examples.options 3 (F32.of_halves 1)))
        = false)).
Proof.
  eexists. split; [vm_compute; reflexivity|].
  apply (cutoff_numeric Examples.cosine_db (Examples.vec [1; 0]%Z)
           (Examples.options 3 (F32.of_halves 1))).
  vm_compute. reflexivity.
Defined.

(** C4. When the first vector is the shorter one, here of length 1
    against length 2, both metrics return a score, the one of its first
    component alone, where the source announces a panic; they panic when
    the first vector is the longer one. *)
Theorem Distance_shorter_returns :
  Distance DotProduct (Examples.vec [1]%Z) (Examples.vec [1; 2]%Z)
    = Some (F32.of_Z 1) /\
  Distance CosineSimilarity (Examples.vec [1]%Z) (Examples.vec [1; 2]%Z)
    = Some (F32.of_Z 1) /\
  Distance DotProduct (Examples.vec [1; 2]%Z) (Examples.vec [1]%Z) = None /\
  Distance CosineSimilarity (Examples.vec [1; 2]%Z) (Examples.vec [1]%Z)
    = None.
Proof. by vm_compute. Qed.

(** C5. On the store of 101 entries with [TopK] one, the threshold 100 of
    the source, which splits the store once, gives two results, and the
    threshold 101, under which the sequential loop goes through the whole
    store, gives one result. *)
Theorem partition_changes_results :
  exists rs rs',
    Query_at 100 Examples.big_db (Examples.vec [1]%Z)
      (Examples.options 1 (F32.of_Z 0)) = Some rs /\
    Query_at 101 Examples.big_db (Examples.vec [1]%Z)
      (Examples.options 1 (F32.of_Z 0)) = Some rs' /\
    length rs = 2 /\ length rs' = 1.
Proof.
  eexists _, _. split; [vm_compute; reflexivity|].
  split; [vm_compute; reflexivity|]. done.
Qed.

(** With a negative [TopK], [Query] panics: on the empty store, and on a
    store whose every entry the predicate rejects. With [TopK] zero,
    [Query] panics when the query vector is longer than a vector of the
    store. *)
Lemma Query_panics :
  Query Examples.empty_db (Examples.vec [1; 0]%Z)
    (Examples.options (-1) (F32.of_Z 0)) = None /\
  Query Examples.cosine_db (Examples.vec [1; 0]%Z)
    {| TopK := -1; MinimumScore := F32.of_Z 0;
       Predicate := Some Examples.nobody |} = None /\
  Query Examples.cosine_db (Examples.vec [1; 0; 0]%Z)
    (Examples.options 0 (F32.of_Z 0)) = None.
Proof. repeat split; vm_compute; reflexivity. Qed.

(** A [TopK] above the capacity that [makeslice] accepts makes [Query]
    panic like a negative one: on the empty store, on a store whose every
    entry the predicate rejects, and from the first capacity whose slice
    takes more than [maxAlloc] bytes. *)
Lemma Query_panics_large_TopK :
  Query Examples.empty_db (Examples.vec [1; 0]%Z)
    (Examples.options (2 ^ 62) (F32.of_Z 0)) = None /\
  Query Examples.cosine_db (Examples.vec [1; 0]%Z)
    {| TopK := 2 ^ 63 - 1; MinimumScore := F32.of_Z 0;
       Predicate := Some Examples.nobody |} = None /\
  Query Examples.empty_db (Examples.vec [1; 0]%Z)
    (Examples.options (2 ^ 44 + 1) (F32.of_Z 0)) = None.
Proof. repeat split; vm_compute; reflexivity. Qed.

(** C8, amended. [Query] returns the empty list, without a panic, in each
    of these cases: the store has no entry and [TopK] is a capacity that
    [make] accepts for the slice of results, which is one that is not
    negative and whose slice takes [maxAlloc] bytes at most; [TopK] is
    zero and the metric panics on no entry that the predicate lets
    through; [TopK] is a capacity that [make] accepts and the predicate
    rejects every entry of the store. *)
Theorem Query_empty_results {Meta : Type} (db : VectorDB Meta)
    (vector : list float32) (o : QueryOptions Meta) :
  (entries db = [] /\
   (0 <= TopK o)%Z /\ (QueryResult_size * TopK o <= maxAlloc)%Z) \/
  (TopK o = 0%Z /\
   Forall (scorable (distanceMetric db) vector o) (entries db)) \/
  ((0 <= TopK o)%Z /\ (QueryResult_size * TopK o <= maxAlloc)%Z /\
   exists p, Predicate o = Some p /\
             forall e, e ∈ entries db -> p e = false) ->
  Query db vector o = Some [].
Proof.
  intros [(Hes & HK & Hmax)|[[HK Hsc]|(HK & Hmax & p & Hp & Hrej)]].
  - unfold Query, querySlice. rewrite Hes. simpl. unfold leaf.
    by rewrite (proj2 (makeslice_Some _ _ _) (conj HK (conj Hmax eq_refl))).
  - destruct (Query_at_total threshold db vector o) as [rs Hrs];
      [unfold threshold; lia|lia|by rewrite HK|done|].
    rewrite Query_Query_at, Hrs.
    by rewrite (querySlice_at_zero _ _ _ _ _ _ _ HK Hrs).
  - destruct (Query_at_total threshold db vector o) as [rs Hrs];
      [unfold threshold; lia|done|done| |].
    { apply Forall_forall. intros e He. unfold scorable.
      rewrite Hp, (Hrej e He). done. }
    rewrite Query_Query_at, Hrs.
    apply querySlice_at_sub in Hrs.
    rewrite (candidates_rejected _ _ _ _ p Hp Hrej) in Hrs.
    by apply submseteq_nil_r in Hrs as ->.
Qed.

Lemma Query_empty_results_witness :
  (Query Examples.empty_db (Examples.vec [1; 0]%Z)
     (Examples.options 2 (F32.of_Z 0)) = Some []) /\
  (Query Examples.big_db (Examples.vec [1]%Z)
     (Examples.options 0 (F32.of_Z 0)) = Some []) /\
  (Query Examples.cosine_db (Examples.vec [1; 0]%Z)
     {| TopK := 2; MinimumScore := F32.of_Z 0;
        Predicate := Some Examples.nobody |} = Some []).
Proof.
  split; [|split].
  - apply Query_empty_results. left.
    split; [reflexivity|split; discriminate].
  - apply Query_empty_results. right. left. split; [reflexivity|].
    apply Forall_forall. intros e He _.
    apply list_elem_of_fmap in He as (k & -> & _). vm_compute. eauto.
  - apply Query_empty_results. right. right.
    split; [discriminate|split; [discriminate|]].
    exists Examples.nobody. split; reflexivity.
Defined.

(** C10. Whatever [TopK] and whatever the threshold at which [querySlice]
    splits the entries ([Query] is [Query_at threshold]), every result of
    the list that the query returns has for entry an entry of the store
    that the predicate, when there is one, accepts, and the list has at
    most as many results as the store has entries. The query returns a
    list as soon as [TopK] is a capacity that [make] accepts and the
    metric panics on no entry that the predicate accepts (lemma
    [Query_at_total]). *)
Theorem results_from_store {Meta : Type} (t : nat) (db : VectorDB Meta)
    (vector : list float32) (o : QueryOptions Meta)
    (rs : list (QueryResult Meta)) :
  Query_at t db vector o = Some rs ->
  (forall r, r ∈ rs ->
     Result_Entry r ∈ entries db /\
     forall p, Predicate o = Some p -> p (Result_Entry r) = true) /\
  length rs <= length (entries db).
Proof.
  intros Hsub%querySlice_at_sub. split.
  - intros r Hr. apply (elem_of_submseteq _ _ _ Hr) in Hsub.
    apply elem_of_candidates in Hsub as (e & He & Hc).
    apply candidate_Some in Hc as (-> & Hp & _). done.
  - etrans; [by apply submseteq_length|]. apply candidates_length.
Qed.

Lemma results_from_store_witness :
  exists rs,
    Query Examples.cosine_db (Examples.vec [1; 0]%Z) Examples.named_options
      = Some rs /\
    (forall r, r ∈ rs ->
       Result_Entry r ∈ entries Examples.cosine_db /\
       forall p, Predicate Examples.named_options = Some p ->
                 p (Result_Entry r) = true) /\
    length rs <= length (entries Examples.cosine_db).
Proof.
  eexists. split; [vm_compute; reflexivity|].
  apply (results_from_store threshold Examples.cosine_db
           (Examples.vec [1; 0]%Z) Examples.named_options).
  vm_compute. reflexivity.
Defined.

(** * Further properties of the store *)

Section StoreLaws.
Context {Meta : Type}.
Implicit Types (es : list (Entry Meta)) (e : Entry Meta) (id : ID).
Implicit Types (db : VectorDB Meta).

Lemma entry_of_Some id es e :
  entry_of id es = Some e -> e ∈ es /\ Entry_ID e = id.
Proof.
  unfold entry_of. intros [Hin Heq]%find_some. split.
  - by apply list_elem_of_In.
  - by apply String.eqb_eq.
Qed.

Lemma entry_of_elem es e :
  sorted_IDs es -> e ∈ es -> entry_of (Entry_ID e) es = Some e.
Proof.
  induction 1 as [|a es _ IH Hall]; [by intros ?%elem_of_nil|].
  rewrite entry_of_cons. intros [->|He]%elem_of_cons.
  - by rewrite String.eqb_refl.
  - pose proof (proj1 (Forall_forall _ _) Hall e He) as Hlt. unfold ID_lt in Hlt.
    destruct (String.eqb_spec (Entry_ID a) (Entry_ID e)) as [Heq|]; [|by apply IH].
    by rewrite Heq, ID_ltb_irrefl in Hlt.
Qed.

(** Two sorted slices in which every identifier has the same entry are
    the same slice. *)
Lemma sorted_IDs_ext (l1 l2 : list (Entry Meta)) :
  sorted_IDs l1 -> sorted_IDs l2 ->
  (forall id, entry_of id l1 = entry_of id l2) -> l1 = l2.
Proof.
  intros H1 H2 Hext.
  apply (StronglySorted_unique_strong ID_lt); [|done..|].
  - intros x1 x2 _ _ H12 H21. unfold ID_lt in *.
    by rewrite (ID_ltb_asym _ _ H12) in H21.
  - apply NoDup_Permutation.
    + eapply NoDup_fmap_1, sorted_IDs_NoDup, H1.
    + eapply NoDup_fmap_1, sorted_IDs_NoDup, H2.
    + intros e. split; intros He.
      * apply entry_of_elem in He; [|done]. rewrite Hext in He.
        by apply entry_of_Some in He as [? _].
      * apply entry_of_elem in He; [|done]. rewrite <- Hext in He.
        by apply entry_of_Some in He as [? _].
Qed.

Lemma apply_op_metric (op : @Op Meta) db db' :
  apply_op op db = Some db' -> distanceMetric db' = distanceMetric db.
Proof.
  destruct op as [entry|id]; simpl.
  - unfold Upsert. destruct (search db (Entry_ID entry)) as [[n ok]|]; simpl; [|done].
    destruct ok; simpl.
    + destruct (n <? length (entries db)); [|done]. by intros [= <-].
    + destruct (slices_Insert (entries db) n entry); simpl; [|done]. by intros [= <-].
  - unfold Delete. destruct (search db id) as [[n ok]|]; simpl; [|done].
    destruct ok; simpl.
    + destruct (slices_Delete (entries db) n (n + 1)); simpl; [|done]. by intros [= <-].
    + by intros [= <-].
Qed.

Lemma run_ops_metric (ops : list (@Op Meta)) db db' :
  run_ops ops db = Some db' -> distanceMetric db' = distanceMetric db.
Proof.
  revert db. induction ops as [|op ops IH]; intros db; simpl.
  - by intros [= <-].
  - destruct (apply_op op db) as [db1|] eqn:H1; simpl; [|done].
    intros H. rewrite (IH _ H). by eapply apply_op_metric.
Qed.

Lemma VectorDB_ext db1 db2 :
  entries db1 = entries db2 -> distanceMetric db1 = distanceMetric db2 ->
  db1 = db2.
Proof. destruct db1, db2. simpl. by intros -> ->. Qed.

(** Two sequences of operations that leave every identifier with the same
    last write leave the same store. *)
Lemma run_ops_ext (ops1 ops2 : list (@Op Meta)) db :
  sorted_IDs (entries db) ->
  (forall id current, written id ops1 current = written id ops2 current) ->
  run_ops ops1 db = run_ops ops2 db.
Proof.
  intros Hs Hw.
  destruct (run_ops_sorted ops1 db Hs) as (db1 & Hr1 & Hs1 & Hh1).
  destruct (run_ops_sorted ops2 db Hs) as (db2 & Hr2 & Hs2 & Hh2).
  rewrite Hr1, Hr2. f_equal. apply VectorDB_ext.
  - apply sorted_IDs_ext; [done..|]. intros id. by rewrite Hh1, Hh2.
  - by rewrite (run_ops_metric _ _ _ Hr1), (run_ops_metric _ _ _ Hr2).
Qed.

Lemma written_Permutation id (ops1 ops2 : list (@Op Meta)) current :
  ops1 ≡ₚ ops2 -> NoDup (op_id <$> ops1) ->
  written id ops1 current = written id ops2 current.
Proof.
  intros Hp. revert current.
  induction Hp as [|op l1 l2 Hp IH|x y l|l1 l2 l3 Hp1 IH1 Hp2 IH2];
    intros current Hnd.
  - done.
  - apply NoDup_cons in Hnd as [_ Hnd]. destruct op; simpl; by apply IH.
  - apply NoDup_cons in Hnd as [Hy _]. rewrite not_elem_of_cons in Hy.
    destruct Hy as [Hy _].
    destruct x as [ex|ix], y as [ey|iy]; simpl in *;
      repeat match goal with
      | |- context [String.eqb ?a ?b] => destruct (String.eqb_spec a b)
      end; congruence.
  - rewrite IH1 by done. apply IH2. by rewrite <- Hp1.
Qed.

Lemma filter_all {A : Type} (f : A -> bool) (l : list A) :
  Forall (fun a => f a = true) l -> List.filter f l = l.
Proof. induction 1 as [|a l Ha _ IH]; simpl; [done|]. by rewrite Ha, IH. Qed.

Lemma filter_none {A : Type} (f : A -> bool) (l : list A) :
  Forall (fun a => f a = false) l -> List.filter f l = [].
Proof. induction 1 as [|a l Ha _ IH]; simpl; [done|]. by rewrite Ha, IH. Qed.

Lemma existsb_none {A : Type} (f : A -> bool) (l : list A) :
  Forall (fun a => f a = false) l -> existsb f l = false.
Proof. induction 1 as [|a l Ha _ IH]; simpl; [done|]. by rewrite Ha, IH. Qed.

(** The three parts of a sorted slice around an identifier. *)
Lemma sorted_parts es id (l1 l2 : list (Entry Meta)) (old : list (Entry Meta)) :
  es = l1 ++ old ++ l2 ->
  Forall (fun a => String.ltb (Entry_ID a) id = true) l1 ->
  Forall (fun a => Entry_ID a = id) old ->
  Forall (fun a => String.ltb id (Entry_ID a) = true) l2 ->
  List.filter (below id) es = l1 /\
  List.filter (bears id) es = old /\
  List.filter (above id) es = l2 /\
  List.filter (fun a => negb (bears id a)) es = l1 ++ l2.
Proof.
  intros -> H1 Ho H2. rewrite !List.filter_app.
  assert (Forall (fun a => below id a = true) l1) as B1 by done.
  assert (Forall (fun a => above id a = false) l1) as A1.
  { eapply Forall_impl; [exact H1|]. intros a Ha. by apply ID_ltb_asym. }
  assert (Forall (fun a => bears id a = false) l1) as E1.
  { eapply Forall_impl; [exact H1|]. intros a Ha. simpl in Ha.
    apply String.eqb_neq. intros Heq. by rewrite Heq, ID_ltb_irrefl in Ha. }
  assert (Forall (fun a => above id a = true) l2) as A2 by done.
  assert (Forall (fun a => below id a = false) l2) as B2.
  { eapply Forall_impl; [exact H2|]. intros a Ha. by apply ID_ltb_asym. }
  assert (Forall (fun a => bears id a = false) l2) as E2.
  { eapply Forall_impl; [exact H2|]. intros a Ha. simpl in Ha.
    apply String.eqb_neq. intros Heq. by rewrite Heq, ID_ltb_irrefl in Ha. }
  assert (Forall (fun a => bears id a = true) old) as Eo.
  { eapply Forall_impl; [exact Ho|]. intros a Ha. by apply String.eqb_eq. }
  assert (Forall (fun a => below id a = false) old) as Bo.
  { eapply Forall_impl; [exact Ho|]. intros a <-. apply ID_ltb_irrefl. }
  assert (Forall (fun a => above id a = false) old) as Ao.
  { eapply Forall_impl; [exact Ho|]. intros a <-. apply ID_ltb_irrefl. }
  assert (Forall (fun a => negb (bears id a) = true) l1) as N1.
  { eapply Forall_impl; [exact E1|]. by intros a ->. }
  assert (Forall (fun a => negb (bears id a) = true) l2) as N2.
  { eapply Forall_impl; [exact E2|]. by intros a ->. }
  assert (Forall (fun a => negb (bears id a) = false) old) as No.
  { eapply Forall_impl; [exact Eo|]. by intros a ->. }
  rewrite (filter_all _ l1 B1), (filter_none _ l1 A1), (filter_none _ l1 E1),
    (filter_all _ l1 N1).
  rewrite (filter_all _ l2 A2), (filter_none _ l2 B2), (filter_none _ l2 E2),
    (filter_all _ l2 N2).
  rewrite (filter_all _ old Eo), (filter_none _ old Bo), (filter_none _ old Ao),
    (filter_none _ old No).
  by rewrite !app_nil_r.
Qed.

Lemma search_parts es id :
  sorted_IDs es ->
  exists n ok l1 old l2,
    BinarySearchFunc es id search_cmp = Some (n, ok) /\
    es = l1 ++ old ++ l2 /\ length l1 = n /\
    Forall (fun a => String.ltb (Entry_ID a) id = true) l1 /\
    Forall (fun a => Entry_ID a = id) old /\
    Forall (fun a => String.ltb id (Entry_ID a) = true) l2 /\
    (if ok then exists a, old = [a] else old = []).
Proof.
  intros Hs.
  destruct (search_sorted es id Hs)
    as (n & ok & l1 & l2 & Hsearch & Hes & Hn & Hl1 & Hok).
  destruct ok.
  - destruct Hok as (a & l2' & -> & Ha & Hl2).
    exists n, true, l1, [a], l2'. repeat split; try done.
    + by repeat constructor.
    + by exists a.
  - exists n, false, l1, [], l2. repeat split; try done.
Qed.

(** What the binary search returns on a sorted slice. *)
Lemma search_filter es id :
  sorted_IDs es ->
  BinarySearchFunc es id search_cmp =
    Some (length (List.filter (below id) es), existsb (bears id) es).
Proof.
  intros Hs.
  destruct (search_parts es id Hs)
    as (n & ok & l1 & old & l2 & Hsearch & Hes & Hn & Hl1 & Hold & Hl2 & Hok).
  destruct (sorted_parts _ id l1 l2 old Hes Hl1 Hold Hl2) as (Hb & Hbe & _).
  rewrite Hsearch, Hb, Hn. do 2 f_equal.
  rewrite Hes, !existsb_app.
  rewrite (existsb_none _ l1), (existsb_none _ l2); simpl.
  - destruct ok.
    + destruct Hok as [a ->]. apply Forall_cons in Hold as [<- _].
      simpl. unfold bears. by rewrite String.eqb_refl.
    + by subst old.
  - eapply Forall_impl; [exact Hl2|]. intros a Ha. simpl in Ha. apply String.eqb_neq.
    intros Heq. by rewrite Heq, ID_ltb_irrefl in Ha.
  - eapply Forall_impl; [exact Hl1|]. intros a Ha. simpl in Ha. apply String.eqb_neq.
    intros Heq. by rewrite Heq, ID_ltb_irrefl in Ha.
Qed.
End StoreLaws.

(** X1. On a store whose entries are sorted by identifier, [search]
    returns the number of entries whose identifier is below the one it
    looks for, and tells whether an entry bears that identifier. *)
Theorem search_position {Meta : Type} (db : VectorDB Meta) (id : ID) :
  sorted_by_ID (entries db) = true ->
  search db id =
    Some (length (List.filter (below id) (entries db)),
          existsb (bears id) (entries db)).
Proof. intros Hs%sorted_by_ID_spec. unfold search. by apply search_filter. Qed.

Lemma search_position_witness :
  sorted_by_ID (entries Examples.cosine_db) = true /\
  search Examples.cosine_db "B"%string = Some (1, true) /\
  search Examples.cosine_db "AB"%string = Some (1, false).
Proof.
  split; [reflexivity|]. split.
  - exact (search_position Examples.cosine_db "B"%string eq_refl).
  - exact (search_position Examples.cosine_db "AB"%string eq_refl).
Defined.

(** X2. On a sorted store [Upsert] returns, and the entries of the store
    it leaves are the entries whose identifier is below that of the new
    entry, the new entry, and the entries whose identifier is above it, in
    this order: an entry that bore the identifier is replaced and every
    other entry is kept. The number of entries, which [getAllTools]
    returns, grows by one when no entry bore the identifier and is
    unchanged otherwise. *)
Theorem Upsert_entries {Meta : Type} (entry : Entry Meta) (db : VectorDB Meta) :
  sorted_by_ID (entries db) = true ->
  exists db', Upsert entry db = Some db' /\
    entries db' =
      List.filter (below (Entry_ID entry)) (entries db) ++
      entry :: List.filter (above (Entry_ID entry)) (entries db) /\
    getAllTools db' =
      (if existsb (bears (Entry_ID entry)) (entries db)
       then getAllTools db else S (getAllTools db)).
Proof.
  intros Hs%sorted_by_ID_spec.
  pose proof (search_filter (entries db) (Entry_ID entry) Hs) as Hsearch.
  destruct (search_parts (entries db) (Entry_ID entry) Hs)
    as (n & ok & l1 & old & l2 & Hsearch' & Hes & Hn & Hl1 & Hold & Hl2 & Hok).
  destruct (sorted_parts _ _ l1 l2 old Hes Hl1 Hold Hl2) as (Hb & Hbe & Ha & _).
  rewrite Hsearch' in Hsearch.
  injection Hsearch as _ Hex.
  unfold Upsert, search. rewrite Hsearch'. simpl. rewrite Hb, Ha.
  unfold getAllTools. rewrite <- Hex, Hes. subst n.
  destruct ok; simpl.
  - destruct Hok as [a ->].
    destruct (Nat.ltb_spec (length l1) (length (l1 ++ [a] ++ l2))) as [_|Hge].
    2:{ rewrite !length_app in Hge. simpl in Hge. lia. }
    eexists. split; [done|]. simpl.
    rewrite insert_app_r_alt, Nat.sub_diag by done. simpl.
    split; [done|]. rewrite !length_app. simpl. done.
  - subst old. simpl. unfold slices_Insert.
    destruct (Nat.leb_spec (length l1) (length (l1 ++ l2))) as [_|Hgt].
    2:{ rewrite length_app in Hgt. lia. }
    rewrite take_app_length, drop_app_length.
    eexists. split; [done|]. simpl. split; [done|].
    rewrite !length_app. simpl. lia.
Qed.

Lemma Upsert_entries_witness :
  (exists db', Upsert Examples.entryB' Examples.cosine_db = Some db' /\
     entries db' = [Examples.entryA; Examples.entryB'; Examples.entryC] /\
     getAllTools db' = 3) /\
  (exists db', Upsert Examples.entryD Examples.cosine_db = Some db' /\
     entries db' =
       [Examples.entryA; Examples.entryB; Examples.entryC; Examples.entryD] /\
     getAllTools db' = 4).
Proof.
  split.
  - exact (Upsert_entries Examples.entryB' Examples.cosine_db eq_refl).
  - exact (Upsert_entries Examples.entryD Examples.cosine_db eq_refl).
Defined.

(** X3. On a sorted store [Delete] returns, and the entries of the store
    it leaves are the entries that do not bear the identifier, in their
    order: the entry that bore it is removed and nothing else changes. The
    number of entries falls by one when an entry bore the identifier and
    is unchanged otherwise. *)
Theorem Delete_entries {Meta : Type} (id : ID) (db : VectorDB Meta) :
  sorted_by_ID (entries db) = true ->
  exists db', Delete id db = Some db' /\
    entries db' = List.filter (fun a => negb (bears id a)) (entries db) /\
    getAllTools db' =
      (if existsb (bears id) (entries db)
       then getAllTools db - 1 else getAllTools db).
Proof.
  intros Hs%sorted_by_ID_spec.
  pose proof (search_filter (entries db) id Hs) as Hsearch.
  destruct (search_parts (entries db) id Hs)
    as (n & ok & l1 & old & l2 & Hsearch' & Hes & Hn & Hl1 & Hold & Hl2 & Hok).
  destruct (sorted_parts _ _ l1 l2 old Hes Hl1 Hold Hl2) as (_ & _ & _ & Hnb).
  rewrite Hsearch' in Hsearch.
  injection Hsearch as _ Hex.
  unfold Delete, search. rewrite Hsearch'. simpl. rewrite Hnb.
  unfold getAllTools. rewrite <- Hex. subst n.
  destruct ok; simpl.
  - destruct Hok as [a ->]. unfold slices_Delete. rewrite Hes.
    destruct (Nat.leb_spec (length l1) (length l1 + 1)); [|lia].
    destruct (Nat.leb_spec (length l1 + 1) (length (l1 ++ [a] ++ l2)))
      as [_|Hgt].
    2:{ rewrite !length_app in Hgt. simpl in Hgt. lia. }
    simpl. rewrite take_app_length.
    rewrite (drop_app_add' l1 (a :: l2) (length l1) 1) by done. simpl.
    rewrite drop_0. eexists. split; [done|]. simpl. split; [done|].
    rewrite !length_app. simpl. lia.
  - subst old. exists db. split; [done|]. by rewrite Hes.
Qed.

Lemma Delete_entries_witness :
  exists db', Delete "B"%string Examples.cosine_db = Some db' /\
    entries db' = [Examples.entryA; Examples.entryC] /\
    getAllTools db' = 2.
Proof. exact (Delete_entries "B"%string Examples.cosine_db eq_refl). Defined.

(** X4. Two upserts of the same identifier in a row leave the store that
    the second one alone leaves: the last write wins and the first one
    leaves no trace. *)
Theorem Upsert_last_wins {Meta : Type} (e1 e2 : Entry Meta)
    (db : VectorDB Meta) :
  sorted_by_ID (entries db) = true -> Entry_ID e1 = Entry_ID e2 ->
  Upsert e1 db ≫= Upsert e2 = Upsert e2 db.
Proof.
  intros Hs%sorted_by_ID_spec Hid.
  pose proof (run_ops_ext [OpUpsert e1; OpUpsert e2] [OpUpsert e2] db Hs) as H.
  simpl in H.
  destruct (Upsert_sorted e2 db Hs) as (db2 & H2 & _).
  rewrite H2 in H. simpl in H. rewrite H2, <- H.
  - destruct (Upsert e1 db) as [db1|]; simpl; [|done].
    by destruct (Upsert e2 db1).
  - intros id current. rewrite Hid.
    by destruct (String.eqb (Entry_ID e2) id).
Qed.

Lemma Upsert_last_wins_witness :
  Upsert Examples.entryB Examples.cosine_db ≫= Upsert Examples.entryB'
  = Upsert Examples.entryB' Examples.cosine_db.
Proof.
  apply (Upsert_last_wins Examples.entryB Examples.entryB' Examples.cosine_db);
    reflexivity.
Defined.

(** X5. On a sorted store that holds no entry of the identifier, an
    upsert followed by the delete of its identifier gives back the store
    as it was. *)
Theorem Upsert_Delete_round_trip {Meta : Type} (e : Entry Meta)
    (db : VectorDB Meta) :
  sorted_by_ID (entries db) = true ->
  Forall (fun a => Entry_ID a <> Entry_ID e) (entries db) ->
  Upsert e db ≫= Delete (Entry_ID e) = Some db.
Proof.
  intros Hs%sorted_by_ID_spec Hid.
  destruct (Upsert_sorted e db Hs) as (db1 & H1 & Hs1 & Hm1 & Hh1).
  rewrite H1. simpl.
  destruct (Delete_sorted (Entry_ID e) db1 Hs1) as (db2 & H2 & Hs2 & Hm2 & Hh2).
  rewrite H2. f_equal. apply VectorDB_ext; [|congruence].
  apply sorted_IDs_ext; [done..|]. intros id. rewrite Hh2, Hh1.
  destruct (String.eqb_spec (Entry_ID e) id) as [<-|]; [|done].
  symmetry. by apply entry_of_other.
Qed.

Lemma Upsert_Delete_round_trip_witness :
  Upsert Examples.entryD Examples.cosine_db ≫= Delete "D"%string
  = Some Examples.cosine_db.
Proof.
  apply (Upsert_Delete_round_trip Examples.entryD Examples.cosine_db).
  - reflexivity.
  - repeat first [apply Forall_nil_2 | apply Forall_cons_2; [discriminate|]].
Defined.

(** X6. Operations that name pairwise distinct identifiers commute: on a
    sorted store, a sequence of such upserts and deletes and any
    rearrangement of it both return and leave the same store. The order in
    which the upserts of distinct tools reach the store does not show in
    it. *)
Theorem ops_reorder {Meta : Type} (ops1 ops2 : list (@Op Meta))
    (db : VectorDB Meta) :
  sorted_by_ID (entries db) = true ->
  NoDup (op_id <$> ops1) -> ops1 ≡ₚ ops2 ->
  run_ops ops1 db = run_ops ops2 db /\ is_Some (run_ops ops1 db).
Proof.
  intros Hs%sorted_by_ID_spec Hnd Hp. split.
  - apply run_ops_ext; [done|]. intros id current. by apply written_Permutation.
  - destruct (run_ops_sorted ops1 db Hs) as (db1 & -> & _). eauto.
Qed.

Lemma ops_reorder_witness :
  run_ops Examples.upserts_ABC Examples.empty_db
  = run_ops Examples.upserts_CAB Examples.empty_db /\
  is_Some (run_ops Examples.upserts_ABC Examples.empty_db).
Proof.
  apply (ops_reorder Examples.upserts_ABC Examples.upserts_CAB
           Examples.empty_db).
  - reflexivity.
  - repeat (apply NoDup_cons_2;
            [intros H;
             repeat (apply elem_of_cons in H as [H|H]; [discriminate|]);
             by apply elem_of_nil in H|]).
    apply NoDup_nil_2.
  - symmetry.
    apply (Permutation_cons_append
             [OpUpsert Examples.entryA; OpUpsert Examples.entryB]
             (OpUpsert Examples.entryC)).
Defined.

(** * Further properties of the query *)

Section QueryLaws.
Context {Meta : Type}.
Implicit Types (m : DistanceMetric) (o : QueryOptions Meta).
Implicit Types (e : Entry Meta) (es : list (Entry Meta)).
Implicit Types (qr : QueryResult Meta).
Implicit Types (rs results dropped : list (QueryResult Meta)).

Lemma submseteq_NoDup {A : Type} (l k : list A) :
  l ⊆+ k -> NoDup k -> NoDup l.
Proof.
  intros (l' & Hp & Hsub)%submseteq_sublist_r Hk.
  rewrite Hp. by eapply sublist_NoDup.
Qed.

Lemma candidates_entries_sublist m vector o es :
  Result_Entry <$> candidates m vector o es `sublist_of` es.
Proof.
  induction es as [|e es IH]; [done|]. rewrite candidates_cons.
  destruct (candidate m vector o e) as [qr|] eqn:Hc.
  - apply candidate_Some in Hc as (<- & _). rewrite fmap_cons.
    by apply sublist_skip.
  - by apply sublist_cons.
Qed.

(** A step of the leaf that returns has scored its entry, or has seen the
    predicate reject it. *)
Lemma leaf_step_scorable m vector o capacity results e results' :
  leaf_step m vector o capacity results e = Some results' ->
  scorable m vector o e.
Proof.
  unfold leaf_step, scorable. intros Hstep Hp.
  destruct (Predicate o) as [p|].
  - rewrite Hp in Hstep. simpl in Hstep.
    destruct (Distance m vector (Vector e)); [eauto|done].
  - simpl in Hstep. destruct (Distance m vector (Vector e)); [eauto|done].
Qed.

Lemma leaf_loop_scorable m vector o capacity es results rs :
  leaf_loop m vector o capacity es results = Some rs ->
  Forall (scorable m vector o) es.
Proof.
  revert results. induction es as [|e es IH]; intros results; simpl; [done|].
  destruct (leaf_step m vector o capacity results e) as [results'|] eqn:He;
    simpl; [|done].
  intros Hloop. constructor; [by eapply leaf_step_scorable|by eapply IH].
Qed.

Lemma querySlice_at_scorable (t fuel : nat) m es vector o rs :
  querySlice_at t fuel m es vector o = Some rs ->
  ((0 <= TopK o)%Z /\ (QueryResult_size * TopK o <= maxAlloc)%Z) /\
  Forall (scorable m vector o) es.
Proof.
  revert t fuel es rs.
  apply (querySlice_at_ind m vector o
           (fun es _ =>
              ((0 <= TopK o)%Z /\
               (QueryResult_size * TopK o <= maxAlloc)%Z) /\
              Forall (scorable m vector o) es)).
  - intros es rs [HK Hloop]%leaf_inv.
    split; [done|by eapply leaf_loop_scorable].
  - intros es l r rs [HK Hl] [_ Hr] _. split; [done|].
    rewrite <- (take_drop (length es / 2) es). by apply Forall_app.
Qed.

(** The number of results that the leaf holds after an entry. *)
Lemma leaf_step_count m vector o results e results' :
  leaf_step m vector o (Z.to_nat (TopK o)) results e = Some results' ->
  length results <= Z.to_nat (TopK o) ->
  length results' =
    Z.to_nat (TopK o) `min`
      (length results + length (candidates m vector o [e])).
Proof.
  intros Hstep%leaf_step_inv Hlen. rewrite candidates_cons. simpl.
  destruct (candidate m vector o e) as [qr|]; simpl; [|subst; lia].
  destruct Hstep as (n & ok & Hb & Hn).
  destruct (BinarySearchFunc_total results qr (score_cmp m))
    as (n' & ok' & Hb' & Hn').
  rewrite Hb in Hb'. injection Hb' as <- <-.
  destruct (Nat.eqb_spec n (Z.to_nat (TopK o))); [subst; lia|].
  destruct Hn as (base & _ & -> & Hbase).
  rewrite insert_Permutation. simpl.
  destruct (Z.eqb_spec (Z.of_nat (length results)) (TopK o)).
  - destruct Hbase as (last & ->). rewrite length_app in *. simpl in *. lia.
  - subst base. lia.
Qed.

Lemma leaf_loop_count m vector o es results rs :
  leaf_loop m vector o (Z.to_nat (TopK o)) es results = Some rs ->
  length results <= Z.to_nat (TopK o) ->
  length rs =
    Z.to_nat (TopK o) `min`
      (length results + length (candidates m vector o es)).
Proof.
  revert results. induction es as [|e es IH]; intros results;
    cbn [leaf_loop].
  - intros [= <-] ?. unfold candidates. simpl. lia.
  - destruct (leaf_step m vector o _ results e) as [results'|] eqn:He;
      [|intros Hloop; simpl in Hloop; done].
    intros Hloop Hlen. simpl in Hloop.
    pose proof (leaf_step_count _ _ _ _ _ _ He Hlen) as Hc.
    rewrite (IH _ Hloop) by lia. rewrite Hc.
    rewrite (candidates_cons m vector o e es).
    rewrite (candidates_cons m vector o e []) in Hc |- *.
    destruct (candidate m vector o e); simpl in *; lia.
Qed.

Lemma leaf_count m vector o es rs :
  leaf m es vector o = Some rs ->
  length rs = Z.to_nat (TopK o) `min` length (candidates m vector o es).
Proof.
  intros [_ Hloop]%leaf_inv.
  rewrite (leaf_loop_count _ _ _ _ _ _ Hloop); simpl; lia.
Qed.

Lemma F32_ge_refl (a : float32) : is_nan a = false -> F32.ge a a = true.
Proof.
  intros Ha. destruct (F32.ge a a) eqn:H; [done|].
  pose proof (F32_not_ge a a Ha Ha H). congruence.
Qed.

#[local] Instance score_ge_transitive : Transitive (@score_ge Meta).
Proof. intros a b c. apply F32_ge_trans. Qed.

(** A step of the leaf keeps the best results: the results it holds and
    those it has dropped are the candidates seen, it drops one only when
    it is full, and every result held is at least as good as every one
    dropped. *)
Lemma leaf_step_best m vector o results e results' dropped :
  BiggerIsCloser m = false ->
  leaf_step m vector o (Z.to_nat (TopK o)) results e = Some results' ->
  StronglySorted score_ge results ->
  Forall (fun a => is_nan (Score a) = false) results ->
  (forall qr, candidate m vector o e = Some qr -> is_nan (Score qr) = false) ->
  length results <= Z.to_nat (TopK o) ->
  (dropped = [] \/ length results = Z.to_nat (TopK o)) ->
  dominates results dropped ->
  exists dropped',
    results' ++ dropped' ≡ₚ (results ++ dropped) ++ candidates m vector o [e] /\
    (dropped' = [] \/ length results' = Z.to_nat (TopK o)) /\
    dominates results' dropped'.
Proof.
  intros Hm Hstep Hs Hnan Hqr Hlen Hfull Hdom.
  pose proof (leaf_step_inv _ _ _ _ _ _ _ Hstep) as Hinv.
  rewrite candidates_cons.
  destruct (candidate m vector o e) as [qr|]; simpl.
  2:{ subst results'. exists dropped. by rewrite app_nil_r. }
  specialize (Hqr qr eq_refl).
  destruct Hinv as (n & ok & Hb & Hn).
  apply BinarySearchFunc_partition in Hb as (Hnlen & Hlo & Hhi).
  2:{ intros a b ea eb Hab Ha Hb'. rewrite !precedes_score_cmp by done.
      destruct (decide (a = b)) as [->|]; [congruence|].
      apply F32_ge_gt_trans.
      apply (StronglySorted_lookup_lt score_ge results a b); [done|lia|done..]. }
  destruct (Nat.eqb_spec n (Z.to_nat (TopK o))) as [Hcap|Hcap].
  { subst results'. exists (qr :: dropped). split; [|split].
    - rewrite <- Permutation_middle, <- app_assoc.
      rewrite (Permutation_app_comm dropped [qr]). simpl.
      by rewrite <- Permutation_middle.
    - right. lia.
    - intros r d Hr [->|Hd]%elem_of_cons; [|by apply Hdom].
      apply list_elem_of_lookup in Hr as [k Hk].
      apply F32_gt_ge. rewrite <- (precedes_score_cmp m) by done.
      apply (Hlo k r); [|done]. apply lookup_lt_Some in Hk. lia. }
  destruct Hn as (base & Hnb & -> & Hbase).
  destruct (Z.eqb_spec (Z.of_nat (length results)) (TopK o)) as [HK|HK].
  - destruct Hbase as (last & ->).
    exists (last :: dropped). split; [|split].
    + rewrite insert_Permutation. simpl.
      rewrite <- !app_assoc. simpl.
      rewrite <- (Permutation_middle base (dropped ++ [qr]) last).
      rewrite <- (Permutation_middle base dropped last).
      rewrite (Permutation_app_comm dropped [qr]). simpl.
      rewrite <- (Permutation_middle base dropped qr).
      apply perm_swap.
    + right. rewrite insert_Permutation. rewrite length_app in HK.
      simpl in *. lia.
    + assert (Hlast : forall r, r ∈ base -> score_ge r last).
      { intros r Hr. apply StronglySorted_app in Hs as (Hcross & _ & _).
        apply Hcross; [done|by left]. }
      assert (Hqlast : score_ge qr last).
      { destruct (lookup_lt_is_Some_2 (base ++ [last]) n) as [x Hx].
        { rewrite length_app. simpl. lia. }
        assert (score_ge qr x) as Hqx.
        { apply F32_ge_total; [|done|].
          - by apply (proj1 (Forall_lookup _ _) Hnan _ _ Hx).
          - rewrite <- (precedes_score_cmp m) by done. by apply (Hhi n x). }
        destruct (decide (n < length base)) as [Hlt|Hge].
        - rewrite lookup_app_l in Hx by done. etrans; [exact Hqx|].
          apply Hlast. apply list_elem_of_lookup. eauto.
        - rewrite lookup_app_r in Hx by lia.
          replace (n - length base) with 0 in Hx by lia.
          simpl in Hx. by injection Hx as <-. }
      intros r d Hr Hd.
      assert (score_ge last d \/ d = last) as Hld.
      { apply elem_of_cons in Hd as [->|Hd]; [by right|left].
        apply Hdom; [|done]. apply elem_of_app. right. by left. }
      assert (r ∈ base \/ r = qr) as [Hrb| ->].
      { apply elem_of_app in Hr as [Hr|Hr].
        - left. by apply elem_of_take in Hr as (k & ?%list_elem_of_lookup_2 & _).
        - apply elem_of_cons in Hr as [->|Hr]; [by right|left].
          apply list_elem_of_lookup in Hr as [k Hk]. rewrite lookup_drop in Hk.
          by apply list_elem_of_lookup_2 in Hk. }
      * destruct Hld as [Hld| ->]; [|by apply Hlast].
        etrans; [by apply Hlast|done].
      * destruct Hld as [Hld| ->]; [|done]. by etrans.
  - subst base. exists dropped.
    destruct Hfull as [->|Hfull]; [|lia].
    split; [|split].
    + rewrite insert_Permutation, !app_nil_r. apply Permutation_cons_append.
    + by left.
    + by intros r d _ ?%elem_of_nil.
Qed.

Lemma leaf_loop_best m vector o es results dropped seen rs :
  BiggerIsCloser m = false ->
  Forall (fun a => is_nan (Score a) = false)
    (candidates m vector o (seen ++ es)) ->
  leaf_loop m vector o (Z.to_nat (TopK o)) es results = Some rs ->
  results ++ dropped ≡ₚ candidates m vector o seen ->
  StronglySorted score_ge results ->
  length results <= Z.to_nat (TopK o) ->
  (dropped = [] \/ length results = Z.to_nat (TopK o)) ->
  dominates results dropped ->
  exists rest,
    rs ++ rest ≡ₚ candidates m vector o (seen ++ es) /\
    dominates rs rest.
Proof.
  intros Hm. revert results dropped seen.
  induction es as [|e es IH]; intros results dropped seen Hnan;
    cbn [leaf_loop].
  - intros [= <-] Hperm _ _ _ Hdom. exists dropped. by rewrite app_nil_r.
  - destruct (leaf_step m vector o _ results e) as [results'|] eqn:He;
      [|intros Hloop; simpl in Hloop; done].
    intros Hloop Hperm Hs Hlen Hfull Hdom. simpl in Hloop.
    rewrite (cons_middle e seen es), app_assoc in Hnan |- *.
    pose proof Hnan as Hnan'.
    rewrite candidates_app in Hnan'. apply Forall_app in Hnan' as [Hnan' _].
    rewrite candidates_app in Hnan'. apply Forall_app in Hnan' as [H1 H2].
    assert (Forall (fun a => is_nan (Score a) = false) results) as Hres.
    { apply Forall_forall. intros a Ha.
      apply (proj1 (Forall_forall _ _) H1). rewrite <- Hperm.
      apply elem_of_app. by left. }
    assert (forall qr, candidate m vector o e = Some qr ->
                       is_nan (Score qr) = false) as Hqr.
    { intros qr Hc. rewrite candidates_cons, Hc in H2.
      by apply Forall_cons in H2 as [? _]. }
    destruct (leaf_step_best _ _ _ _ _ _ dropped Hm He Hs Hres Hqr Hlen
                Hfull Hdom) as (dropped' & Hperm' & Hfull' & Hdom').
    apply (IH results' dropped' (seen ++ [e])); try done.
    + by rewrite candidates_app, Hperm', Hperm.
    + by eapply leaf_step_sorted.
    + by eapply leaf_step_length.
Qed.

Lemma leaf_best m vector o es rs :
  BiggerIsCloser m = false ->
  Forall (fun a => is_nan (Score a) = false) (candidates m vector o es) ->
  leaf m es vector o = Some rs ->
  exists rest, rs ++ rest ≡ₚ candidates m vector o es /\ dominates rs rest.
Proof.
  intros Hm Hnan [_ Hloop]%leaf_inv.
  apply (leaf_loop_best m vector o es [] [] [] rs); try done.
  - constructor.
  - simpl. lia.
  - by left.
  - by intros r d ?%elem_of_nil.
Qed.

(** Every candidate is matched by a result at least as good. *)
Lemma querySlice_at_covered (t fuel : nat) m es vector o rs :
  BiggerIsCloser m = false -> (0 < TopK o)%Z ->
  querySlice_at t fuel m es vector o = Some rs ->
  Forall (fun a => is_nan (Score a) = false) (candidates m vector o es) ->
  forall c, c ∈ candidates m vector o es -> exists r, r ∈ rs /\ score_ge r c.
Proof.
  intros Hm HK. revert t fuel es rs.
  apply (querySlice_at_ind m vector o
           (fun es rs =>
              Forall (fun a => is_nan (Score a) = false)
                (candidates m vector o es) ->
              forall c, c ∈ candidates m vector o es ->
                        exists r, r ∈ rs /\ score_ge r c)).
  - intros es rs Hleaf Hnan c Hc.
    destruct (leaf_best _ _ _ _ _ Hm Hnan Hleaf) as (rest & Hperm & Hdom).
    pose proof (leaf_count _ _ _ _ _ Hleaf) as Hcount.
    rewrite <- Hperm in Hc. apply elem_of_app in Hc as [Hc|Hc].
    + exists c. split; [done|]. apply F32_ge_refl.
      apply (proj1 (Forall_forall _ _) Hnan). rewrite <- Hperm.
      apply elem_of_app. by left.
    + rewrite <- Hperm, length_app in Hcount.
      destruct rest as [|d rest]; [by apply elem_of_nil in Hc|].
      destruct rs as [|r rs]; [simpl in Hcount; lia|].
      exists r. split; [by left|]. apply Hdom; [by left|done].
  - intros es l r rs Hl Hr Hrs Hnan c Hc.
    destruct (merge_perm l r) as (out & Hout & Hperm).
    rewrite Hrs in Hout. injection Hout as <-.
    rewrite <- (take_drop (length es / 2) es), candidates_app in Hnan, Hc.
    apply Forall_app in Hnan as [Hn1 Hn2].
    apply elem_of_app in Hc as [Hc|Hc].
    + destruct (Hl Hn1 c Hc) as (x & Hx & ?). exists x. split; [|done].
      rewrite Hperm. apply elem_of_app. by left.
    + destruct (Hr Hn2 c Hc) as (x & Hx & ?). exists x. split; [|done].
      rewrite Hperm. apply elem_of_app. by right.
Qed.

(** The first result is at least as good as every candidate, whatever the
    threshold at which the entries are split. *)
Lemma querySlice_at_head_best (t fuel : nat) m es vector o rs :
  BiggerIsCloser m = false ->
  Forall (fun a => is_nan (Score a) = false) (candidates m vector o es) ->
  (0 < TopK o)%Z ->
  candidates m vector o es <> [] ->
  querySlice_at t fuel m es vector o = Some rs ->
  exists r rs', rs = r :: rs' /\
    forall c, c ∈ candidates m vector o es -> score_ge r c.
Proof.
  intros Hm Hnan HK Hne Hq.
  pose proof (querySlice_at_covered _ _ _ _ _ _ _ Hm HK Hq Hnan) as Hcov.
  pose proof (querySlice_at_sorted _ _ _ _ _ _ _ Hm Hq Hnan) as Hs.
  destruct rs as [|r rs'].
  - destruct (candidates m vector o es) as [|c cs]; [done|].
    destruct (Hcov c) as (x & Hx & _); [by left|]. by apply elem_of_nil in Hx.
  - exists r, rs'. split; [done|]. intros c Hc.
    destruct (Hcov c Hc) as (x & Hx & Hxc).
    apply StronglySorted_inv in Hs as [_ Hall].
    apply elem_of_cons in Hx as [->|Hx]; [done|].
    etrans; [|exact Hxc]. by apply (proj1 (Forall_forall _ _) Hall).
Qed.
End QueryLaws.

(** X7. The score of every result that a query returns, at whatever
    threshold the entries are split, is the distance that the metric of
    the store gives between the query vector and the vector of the
    result's entry. *)
Theorem result_scores {Meta : Type} (t : nat) (db : VectorDB Meta)
    (vector : list float32) (o : QueryOptions Meta)
    (rs : list (QueryResult Meta)) :
  Query_at t db vector o = Some rs ->
  forall r, r ∈ rs ->
    Distance (distanceMetric db) vector (Vector (Result_Entry r))
    = Some (Score r).
Proof.
  intros Hsub%querySlice_at_sub r Hr.
  apply (elem_of_submseteq _ _ _ Hr) in Hsub.
  apply elem_of_candidates in Hsub as (e & _ & Hc).
  by apply candidate_Some in Hc as (-> & _ & ? & _).
Qed.

Lemma result_scores_witness :
  exists rs,
    Query Examples.cosine_db (Examples.vec [1; 0]%Z)
      (Examples.options 2 (F32.of_Z 0)) = Some rs /\
    forall r, r ∈ rs ->
      Distance (distanceMetric Examples.cosine_db) (Examples.vec [1; 0]%Z)
        (Vector (Result_Entry r)) = Some (Score r).
Proof.
  eexists. split; [vm_compute; reflexivity|].
  apply (result_scores threshold Examples.cosine_db (Examples.vec [1; 0]%Z)
           (Examples.options 2 (F32.of_Z 0))).
  vm_compute. reflexivity.
Defined.

(** X8. On a sorted store no identifier comes twice in the results of a
    query, also when the entries are split and the partial results
    merged. *)
Theorem results_distinct {Meta : Type} (t : nat) (db : VectorDB Meta)
    (vector : list float32) (o : QueryOptions Meta)
    (rs : list (QueryResult Meta)) :
  sorted_by_ID (entries db) = true ->
  Query_at t db vector o = Some rs ->
  NoDup (Entry_ID <$> (Result_Entry <$> rs)).
Proof.
  intros Hs%sorted_by_ID_spec%sorted_IDs_NoDup Hsub%querySlice_at_sub.
  apply (fmap_submseteq Result_Entry) in Hsub.
  apply (fmap_submseteq Entry_ID) in Hsub.
  eapply submseteq_NoDup; [exact Hsub|].
  eapply sublist_NoDup; [exact Hs|].
  apply fmap_sublist, candidates_entries_sublist.
Qed.

Lemma results_distinct_witness :
  exists rs,
    Query Examples.big_db (Examples.vec [1]%Z)
      (Examples.options 1 (F32.of_Z 0)) = Some rs /\
    NoDup (Entry_ID <$> (Result_Entry <$> rs)).
Proof.
  eexists. split; [vm_compute; reflexivity|].
  apply (results_distinct threshold Examples.big_db (Examples.vec [1]%Z)
           (Examples.options 1 (F32.of_Z 0))).
  - vm_compute. reflexivity.
  - vm_compute. reflexivity.
Defined.

(** X9. [Query] returns exactly when [TopK] is a capacity that [make]
    accepts for the slice of results, one that is not negative and whose
    slice takes [maxAlloc] bytes at most, and the metric scores every
    entry that the predicate lets through; otherwise it panics, in [make]
    or in the metric. *)
Theorem Query_returns_iff {Meta : Type} (db : VectorDB Meta)
    (vector : list float32) (o : QueryOptions Meta) :
  is_Some (Query db vector o) <->
  ((0 <= TopK o)%Z /\ (QueryResult_size * TopK o <= maxAlloc)%Z) /\
  Forall (scorable (distanceMetric db) vector o) (entries db).
Proof.
  split.
  - intros [rs Hrs]. by eapply querySlice_at_scorable.
  - intros [[HK Hmax] Hsc].
    destruct (Query_at_total threshold db vector o) as [rs Hrs];
      [unfold threshold; lia|done..|].
    rewrite Query_Query_at, Hrs. eauto.
Qed.

(** X10. A query returns at least the lesser of [TopK] and the number of
    candidates (the entries that pass the predicate and the cutoff), and at
    most the number of candidates; when the store has no more entries than
    the threshold it returns exactly the lesser of the two. *)
Theorem Query_count {Meta : Type} (t : nat) (db : VectorDB Meta)
    (vector : list float32) (o : QueryOptions Meta)
    (rs : list (QueryResult Meta)) :
  Query_at t db vector o = Some rs ->
  Z.to_nat (TopK o) `min`
    length (candidates (distanceMetric db) vector o (entries db))
  <= length rs <=
  length (candidates (distanceMetric db) vector o (entries db)) /\
  (length (entries db) <= t ->
   length rs =
     Z.to_nat (TopK o) `min`
       length (candidates (distanceMetric db) vector o (entries db))).
Proof.
  intros Hq. split; [split|].
  - revert Hq. unfold Query_at. generalize (length (entries db)) at 1.
    generalize (entries db). intros es fuel. revert t fuel es rs.
    apply (querySlice_at_ind (distanceMetric db) vector o
             (fun es rs =>
                Z.to_nat (TopK o) `min`
                  length (candidates (distanceMetric db) vector o es)
                <= length rs)).
    + intros es rs ->%leaf_count. done.
    + intros es l r rs Hl Hr Hrs.
      destruct (merge_perm l r) as (out & Hout & Hperm).
      rewrite Hrs in Hout. injection Hout as <-.
      rewrite Hperm, length_app.
      rewrite <- (take_drop (length es / 2) es) at 1.
      rewrite candidates_app, length_app. lia.
  - by apply querySlice_at_sub, submseteq_length in Hq.
  - intros Hlen. unfold Query_at in Hq. rewrite querySlice_at_unfold in Hq.
    destruct (Nat.ltb_spec t (length (entries db))); [lia|].
    by apply leaf_count.
Qed.

Lemma Query_count_witness :
  exists rs,
    Query Examples.cosine_db (Examples.vec [1; 0]%Z)
      (Examples.options 2 (F32.of_Z 0)) = Some rs /\
    length (candidates (distanceMetric Examples.cosine_db)
              (Examples.vec [1; 0]%Z) (Examples.options 2 (F32.of_Z 0))
              (entries Examples.cosine_db)) = 3 /\
    length rs = 2.
Proof.
  eexists. split; [vm_compute; reflexivity|]. split; [reflexivity|].
  apply (Query_count threshold Examples.cosine_db (Examples.vec [1; 0]%Z)
           (Examples.options 2 (F32.of_Z 0))).
  - vm_compute. reflexivity.
  - vm_compute. lia.
Defined.

(** X11. With a metric whose [BiggerIsCloser] is false, on a store with no
    more entries than the threshold and no NaN among the scores of the
    candidates, the results are the best candidates: the candidates are
    the results together with another list, and every result has a score
    greater than or equal to that of every candidate of that list. *)
Theorem Query_top_K {Meta : Type} (t : nat) (db : VectorDB Meta)
    (vector : list float32) (o : QueryOptions Meta)
    (rs : list (QueryResult Meta)) :
  BiggerIsCloser (distanceMetric db) = false ->
  Forall (fun a => is_nan (Score a) = false)
    (candidates (distanceMetric db) vector o (entries db)) ->
  length (entries db) <= t ->
  Query_at t db vector o = Some rs ->
  exists rest,
    rs ++ rest ≡ₚ candidates (distanceMetric db) vector o (entries db) /\
    forall r d, r ∈ rs -> d ∈ rest -> F32.ge (Score r) (Score d) = true.
Proof.
  intros Hm Hnan Hlen Hq. unfold Query_at in Hq.
  rewrite querySlice_at_unfold in Hq.
  destruct (Nat.ltb_spec t (length (entries db))); [lia|].
  by apply leaf_best.
Qed.

Lemma Query_top_K_witness :
  exists rs,
    Query Examples.cosine_db (Examples.vec [1; 0]%Z)
      (Examples.options 2 (F32.of_Z 0)) = Some rs /\
    exists rest,
      rs ++ rest ≡ₚ
        candidates (distanceMetric Examples.cosine_db) (Examples.vec [1; 0]%Z)
          (Examples.options 2 (F32.of_Z 0)) (entries Examples.cosine_db) /\
      forall r d, r ∈ rs -> d ∈ rest -> F32.ge (Score r) (Score d) = true.
Proof.
  eexists. split; [vm_compute; reflexivity|].
  apply (Query_top_K threshold Examples.cosine_db (Examples.vec [1; 0]%Z)
           (Examples.options 2 (F32.of_Z 0))).
  - reflexivity.
  - vm_compute. repeat constructor.
  - vm_compute. lia.
  - vm_compute. reflexivity.
Defined.

(** X12. With a metric whose [BiggerIsCloser] is false, a positive [TopK],
    no NaN among the scores of the candidates and at least one candidate,
    the list that [Query] returns is not empty and its first result has a
    score greater than or equal to that of every candidate, also on a
    store that the query splits: rank 1 is the best match. *)
Theorem Query_first_is_best {Meta : Type} (db : VectorDB Meta)
    (vector : list float32) (o : QueryOptions Meta)
    (rs : list (QueryResult Meta)) :
  BiggerIsCloser (distanceMetric db) = false ->
  Forall (fun a => is_nan (Score a) = false)
    (candidates (distanceMetric db) vector o (entries db)) ->
  (0 < TopK o)%Z ->
  candidates (distanceMetric db) vector o (entries db) <> [] ->
  Query db vector o = Some rs ->
  exists r rs', rs = r :: rs' /\
    forall c, c ∈ candidates (distanceMetric db) vector o (entries db) ->
              F32.ge (Score r) (Score c) = true.
Proof.
  intros Hm Hnan HK Hne Hq.
  exact (querySlice_at_head_best _ _ _ _ _ _ _ Hm Hnan HK Hne Hq).
Qed.

Lemma Query_first_is_best_witness :
  exists rs,
    Query Examples.big_db (Examples.vec [1]%Z)
      (Examples.options 1 (F32.of_Z 0)) = Some rs /\
    exists r rs', rs = r :: rs' /\
      forall c,
        c ∈ candidates (distanceMetric Examples.big_db) (Examples.vec [1]%Z)
              (Examples.options 1 (F32.of_Z 0)) (entries Examples.big_db) ->
        F32.ge (Score r) (Score c) = true.
Proof.
  eexists. split; [vm_compute; reflexivity|].
  apply (Query_first_is_best Examples.big_db (Examples.vec [1]%Z)
           (Examples.options 1 (F32.of_Z 0))).
  - reflexivity.
  - vm_compute. repeat constructor.
  - reflexivity.
  - vm_compute. discriminate.
  - vm_compute. reflexivity.
Defined.

(** X13. When [TopK] is at least the number of entries of the store, the
    threshold at which the entries are split does not change what the
    query returns, up to the order of the results: a query that returns at
    one threshold returns at every other one, with the same results. *)
Theorem Query_any_threshold {Meta : Type} (t1 t2 : nat) (db : VectorDB Meta)
    (vector : list float32) (o : QueryOptions Meta)
    (rs1 : list (QueryResult Meta)) :
  1 <= t2 ->
  length (entries db) <= Z.to_nat (TopK o) ->
  Query_at t1 db vector o = Some rs1 ->
  exists rs2, Query_at t2 db vector o = Some rs2 /\ rs1 ≡ₚ rs2.
Proof.
  intros Ht2 Hlen H1.
  destruct (querySlice_at_scorable _ _ _ _ _ _ _ H1) as [[HK Hmax] Hsc].
  destruct (Query_at_total t2 db vector o Ht2 HK Hmax Hsc) as [rs2 H2].
  exists rs2. split; [done|].
  rewrite (querySlice_at_roomy _ _ _ _ _ _ _ H1 Hlen).
  by rewrite (querySlice_at_roomy _ _ _ _ _ _ _ H2 Hlen).
Qed.

Lemma Query_any_threshold_witness :
  exists rs1,
    Query Examples.cosine_db (Examples.vec [1; 0]%Z)
      (Examples.options 3 (F32.of_Z 0)) = Some rs1 /\
    exists rs2,
      Query_at 1 Examples.cosine_db (Examples.vec [1; 0]%Z)
        (Examples.options 3 (F32.of_Z 0)) = Some rs2 /\
      rs1 ≡ₚ rs2.
Proof.
  eexists. split; [vm_compute; reflexivity|].
  apply (Query_any_threshold threshold 1 Examples.cosine_db
           (Examples.vec [1; 0]%Z) (Examples.options 3 (F32.of_Z 0))).
  - lia.
  - vm_compute. lia.
  - vm_compute. reflexivity.
Defined.

(** * Further properties of the metrics *)

Lemma SFmul_comm (prec emax : Z) (x y : spec_float) :
  SFmul prec emax x y = SFmul prec emax y x.
Proof.
  destruct x as [sx|sx| |sx mx ex], y as [sy|sy| |sy my ey]; simpl;
    rewrite ?(xorb_comm sx sy), ?(Pos.mul_comm mx my), ?(Z.add_comm ex ey);
    done.
Qed.

Lemma DotProduct_loop_sym (ak bk apre bpre : list float32) (acc : float32) :
  length apre = length bpre -> length ak = length bk ->
  DotProduct_loop (bpre ++ bk) (length bpre) ak acc =
  DotProduct_loop (apre ++ ak) (length apre) bk acc.
Proof.
  revert bk apre bpre acc.
  induction ak as [|x ak IH]; intros [|y bk] apre bpre acc Hpre Hlen;
    try done.
  cbn [DotProduct_loop]. simpl in Hlen.
  rewrite !list_lookup_middle by done. simpl.
  rewrite (cons_middle y bpre bk), (cons_middle x apre ak), !app_assoc.
  replace (S (length bpre)) with (length (bpre ++ [y]))
    by (rewrite length_app; simpl; lia).
  replace (S (length apre)) with (length (apre ++ [x]))
    by (rewrite length_app; simpl; lia).
  unfold F32.mul. rewrite (SFmul_comm _ _ y x).
  apply IH; [rewrite !length_app; simpl|]; lia.
Qed.

Lemma CosineSimilarity_loop_sym (ak bk apre bpre : list float32)
    (d ma mb : float64) :
  length apre = length bpre -> length ak = length bk ->
  CosineSimilarity_loop (bpre ++ bk) (length bpre) ak d ma mb =
  (fun '(d', mb', ma') => (d', ma', mb')) <$>
    CosineSimilarity_loop (apre ++ ak) (length apre) bk d mb ma.
Proof.
  revert bk apre bpre d ma mb.
  induction ak as [|x ak IH]; intros [|y bk] apre bpre d ma mb Hpre Hlen;
    try done.
  cbn [CosineSimilarity_loop]. simpl in Hlen.
  rewrite !list_lookup_middle by done. simpl.
  rewrite (cons_middle y bpre bk), (cons_middle x apre ak), !app_assoc.
  replace (S (length bpre)) with (length (bpre ++ [y]))
    by (rewrite length_app; simpl; lia).
  replace (S (length apre)) with (length (apre ++ [x]))
    by (rewrite length_app; simpl; lia).
  unfold F32.mul. rewrite (SFmul_comm _ _ y x).
  apply IH; [rewrite !length_app; simpl|]; lia.
Qed.

(** X14. Each of the two metrics returns a score exactly when the first
    vector is not longer than the second one; it panics otherwise, on an
    index out of range. *)
Theorem Distance_defined_iff (a b : list float32) :
  (is_Some (Distance DotProduct a b) <-> length a <= length b) /\
  (is_Some (Distance CosineSimilarity a b) <-> length a <= length b).
Proof.
  destruct (le_lt_dec (length a) (length b)) as [Hle|Hgt].
  - destruct (Distance_shorter a b Hle) as [H1 H2]. split; split; done.
  - destruct (Distance_longer a b Hgt) as [H1 H2]. rewrite H1, H2.
    split; split; try lia; by intros [? ?].
Qed.

(** X15. On two vectors of the same length each of the two metrics gives
    the same score whichever of the two comes first: the same float32
    number, with the same sign when it is a zero or an infinity, or a NaN
    in both orders. The rounding of the floating-point operations does
    not depend on the order of the arguments. [spec_float] has one NaN:
    the sign and the payload of a NaN, which may differ between the two
    orders on a machine, are not compared. *)
Theorem Distance_symmetric (a b : list float32) :
  length a = length b ->
  Distance DotProduct a b = Distance DotProduct b a /\
  Distance CosineSimilarity a b = Distance CosineSimilarity b a.
Proof.
  intros Hlen. simpl. split.
  - unfold DotProduct_Distance.
    apply (DotProduct_loop_sym a b [] []); done.
  - unfold CosineSimilarity_Distance.
    rewrite (CosineSimilarity_loop_sym a b [] []) by done. simpl.
    destruct (CosineSimilarity_loop a 0 b F64.zero F64.zero F64.zero)
      as [[[d' mb'] ma']|]; simpl; [|done].
    unfold F64.mul. by rewrite (SFmul_comm _ _ (F64.sqrt ma')).
Qed.

Lemma Distance_symmetric_witness :
  Distance DotProduct (Examples.vec [1; 2]%Z) (Examples.vec [3; 4]%Z)
  = Distance DotProduct (Examples.vec [3; 4]%Z) (Examples.vec [1; 2]%Z) /\
  Distance CosineSimilarity (Examples.vec [1; 2]%Z) (Examples.vec [3; 4]%Z)
  = Distance CosineSimilarity (Examples.vec [3; 4]%Z) (Examples.vec [1; 2]%Z).
Proof. apply Distance_symmetric. reflexivity. Defined.

(** * Properties of the success rate *)

Lemma F32_lt_ge (s s' z : float32) :
  is_nan s = false -> F32.lt s z = false -> F32.lt s' z = true ->
  F32.ge s s' = true.
Proof.
  intros Hs Hsz Hs'z. apply F32_lt_compare in Hs'z.
  assert (is_nan z = false) as Hz by (by destruct s', z).
  pose proof (SFcompare_antisym s' z) as Hzs'. rewrite Hs'z in Hzs'.
  destruct (SFcompare_not_nan s z Hs Hz) as [c Hc].
  assert (c <> Lt) as Hlt.
  { intros ->. apply F32_lt_compare in Hc. congruence. }
  destruct (SFcompare_trans s z s' c Gt Hc Hzs' Hlt) as (c3 & H3 & ? & _);
    [done|].
  apply F32_ge_compare. eauto.
Qed.

Section CallerLaws.
Context {Meta : Type}.
Variable createEmbeddings : string -> option (list float32).
Implicit Types (db : VectorDB Meta).

(** The count that the loops return is the count they are given plus the
    number of tests that pass. *)
Lemma calculateSuccessRate_prompts_acc db toolName prompts n :
  calculateSuccessRate_prompts createEmbeddings db toolName prompts n =
  (fun k => n + k) <$>
    calculateSuccessRate_prompts createEmbeddings db toolName prompts 0.
Proof.
  revert n. induction prompts as [|p prompts IH]; intros n;
    cbn [calculateSuccessRate_prompts].
  - simpl. f_equal. lia.
  - destruct (createEmbeddings p) as [vector|]; simpl; [|done].
    destruct (Query db vector rank1_options) as [rs|]; simpl; [|done].
    rewrite IH. symmetry. rewrite IH.
    destruct (calculateSuccessRate_prompts createEmbeddings db toolName prompts 0)
      as [k|]; simpl; [|done].
    f_equal. destruct rs as [|r rs]; [lia|].
    destruct (String.eqb (Entry_ID (Result_Entry r)) toolName); lia.
Qed.

Lemma calculateSuccessRate_prompts_le db toolName prompts k :
  calculateSuccessRate_prompts createEmbeddings db toolName prompts 0 = Some k ->
  k <= length prompts.
Proof.
  revert k. induction prompts as [|p prompts IH]; intros k;
    cbn [calculateSuccessRate_prompts].
  - by intros [= <-].
  - destruct (createEmbeddings p) as [vector|]; simpl; [|done].
    destruct (Query db vector rank1_options) as [rs|]; simpl; [|done].
    rewrite calculateSuccessRate_prompts_acc.
    destruct (calculateSuccessRate_prompts createEmbeddings db toolName prompts 0)
      as [k'|]; simpl; [|done].
    specialize (IH k' eq_refl). intros [= <-].
    destruct rs as [|r rs]; [lia|].
    destruct (String.eqb (Entry_ID (Result_Entry r)) toolName); lia.
Qed.

Lemma calculateSuccessRate_tools_acc db tools n :
  calculateSuccessRate_tools createEmbeddings db tools n =
  (fun k => n + k) <$> calculateSuccessRate_tools createEmbeddings db tools 0.
Proof.
  revert n. induction tools as [|[toolName prompts] tools IH]; intros n;
    cbn [calculateSuccessRate_tools].
  - simpl. f_equal. lia.
  - rewrite calculateSuccessRate_prompts_acc.
    destruct (calculateSuccessRate_prompts createEmbeddings db toolName prompts 0)
      as [k|]; simpl; [|done].
    rewrite IH. symmetry. rewrite IH.
    destruct (calculateSuccessRate_tools createEmbeddings db tools 0)
      as [k'|]; simpl; [|done].
    f_equal. lia.
Qed.

Lemma calculateSuccessRate_tools_cons db toolName prompts tools n :
  calculateSuccessRate_tools createEmbeddings db ((toolName, prompts) :: tools) n =
  match calculateSuccessRate_prompts createEmbeddings db toolName prompts 0,
        calculateSuccessRate_tools createEmbeddings db tools 0 with
  | Some k, Some k' => Some (n + k + k')
  | _, _ => None
  end.
Proof.
  cbn [calculateSuccessRate_tools]. rewrite calculateSuccessRate_prompts_acc.
  destruct (calculateSuccessRate_prompts createEmbeddings db toolName prompts 0)
    as [k|]; simpl; [|done].
  rewrite calculateSuccessRate_tools_acc.
  by destruct (calculateSuccessRate_tools createEmbeddings db tools 0).
Qed.
End CallerLaws.

(** X16. The number of successful tests that [calculateSuccessRate]
    returns is at most the number of prompts of the map, the count by
    which [runPrompts] divides it: no more tests pass than were run. *)
Theorem calculateSuccessRate_le {Meta : Type}
    (createEmbeddings : string -> option (list float32)) (db : VectorDB Meta)
    (toolNameWithPrompts : list (string * list string)) (n : nat) :
  calculateSuccessRate createEmbeddings db toolNameWithPrompts = Some n ->
  n <= promptCount toolNameWithPrompts.
Proof.
  unfold calculateSuccessRate, promptCount. revert n.
  induction toolNameWithPrompts as [|[toolName prompts] tools IH]; intros n.
  - by intros [= <-].
  - rewrite calculateSuccessRate_tools_cons.
    destruct (calculateSuccessRate_prompts createEmbeddings db toolName prompts 0)
      as [k|] eqn:Hk; [|done].
    destruct (calculateSuccessRate_tools createEmbeddings db tools 0)
      as [k'|]; [|done].
    intros [= <-]. apply calculateSuccessRate_prompts_le in Hk.
    specialize (IH k' eq_refl). simpl. lia.
Qed.

Lemma calculateSuccessRate_le_witness :
  calculateSuccessRate Examples.embed Examples.cosine_db Examples.prompts
    = Some 2 /\
  2 <= promptCount Examples.prompts.
Proof.
  split; [vm_compute; reflexivity|].
  apply (calculateSuccessRate_le Examples.embed Examples.cosine_db
           Examples.prompts).
  vm_compute. reflexivity.
Defined.

(** X17. What [calculateSuccessRate] returns does not depend on the order
    in which the range over the map meets the tools, an order that Go
    leaves unspecified: the count is the same, and the function fails in
    one order exactly when it fails in the other. *)
Theorem calculateSuccessRate_order {Meta : Type}
    (createEmbeddings : string -> option (list float32)) (db : VectorDB Meta)
    (tools1 tools2 : list (string * list string)) :
  tools1 ≡ₚ tools2 ->
  calculateSuccessRate createEmbeddings db tools1 =
  calculateSuccessRate createEmbeddings db tools2.
Proof.
  unfold calculateSuccessRate.
  induction 1 as [|[toolName prompts] l1 l2 _ IH|[t1 p1] [t2 p2] l|l1 l2 l3 _ IH1 _ IH2].
  - done.
  - by rewrite !calculateSuccessRate_tools_cons, IH.
  - rewrite !calculateSuccessRate_tools_cons.
    destruct (calculateSuccessRate_prompts createEmbeddings db t1 p1 0) as [k1|],
      (calculateSuccessRate_prompts createEmbeddings db t2 p2 0) as [k2|],
      (calculateSuccessRate_tools createEmbeddings db l 0) as [k|];
      try done.
    f_equal. lia.
  - by rewrite IH1.
Qed.

Lemma calculateSuccessRate_order_witness :
  calculateSuccessRate Examples.embed Examples.cosine_db Examples.prompts
  = calculateSuccessRate Examples.embed Examples.cosine_db Examples.prompts'.
Proof.
  apply (calculateSuccessRate_order Examples.embed Examples.cosine_db).
  apply perm_swap.
Defined.

(** X18. A test that passes means what it is meant to mean. With a metric
    whose [BiggerIsCloser] is false and a store on whose every entry the
    prompt's vector has a score that is not a NaN, when
    [calculateSuccessRate] counts the one prompt of a tool as a success,
    the store holds an entry that bears the tool's name and whose score is
    greater than or equal to the score of every entry of the store. *)
Theorem passed_test_is_best {Meta : Type}
    (createEmbeddings : string -> option (list float32)) (db : VectorDB Meta)
    (toolName p : string) (vector : list float32) :
  BiggerIsCloser (distanceMetric db) = false ->
  createEmbeddings p = Some vector ->
  (forall e, e ∈ entries db ->
     exists s, Distance (distanceMetric db) vector (Vector e) = Some s /\
               is_nan s = false) ->
  calculateSuccessRate createEmbeddings db [(toolName, [p])] = Some 1 ->
  exists e s,
    e ∈ entries db /\ Entry_ID e = toolName /\
    Distance (distanceMetric db) vector (Vector e) = Some s /\
    forall e' s', e' ∈ entries db ->
      Distance (distanceMetric db) vector (Vector e') = Some s' ->
      F32.ge s s' = true.
Proof.
  intros Hm Hv Hnan. unfold calculateSuccessRate.
  cbn [calculateSuccessRate_tools calculateSuccessRate_prompts].
  rewrite Hv. simpl.
  destruct (Query db vector rank1_options) as [rs|] eqn:Hq; simpl; [|done].
  destruct rs as [|r rs]; [done|].
  destruct (String.eqb_spec (Entry_ID (Result_Entry r)) toolName) as [Hid|];
    [|done].
  intros _.
  assert (Forall (fun a : QueryResult Meta => is_nan (Score a) = false)
            (candidates (distanceMetric db) vector rank1_options (entries db)))
    as Hcn.
  { apply Forall_forall. intros c (e & He & Hc)%elem_of_candidates.
    apply candidate_Some in Hc as (_ & _ & Hd & _).
    destruct (Hnan e He) as (s & Hs & ?). congruence. }
  pose proof (querySlice_at_sub _ _ _ _ _ _ _ Hq) as Hsub.
  assert (r ∈ candidates (distanceMetric db) vector rank1_options (entries db))
    as Hr.
  { apply (elem_of_submseteq (r :: rs)); [by left|done]. }
  assert (candidates (distanceMetric db) vector rank1_options (entries db)
          <> []) as Hne.
  { intros Hnil. rewrite Hnil in Hr. by apply elem_of_nil in Hr. }
  destruct (querySlice_at_head_best _ _ _ _ _ _ _ Hm Hcn eq_refl Hne Hq)
    as (r' & rs' & [= <- <-] & Hbest).
  apply elem_of_candidates in Hr as (e & He & Hc).
  apply candidate_Some in Hc as (Hre & _ & Hd & Hlt).
  exists e, (Score r). rewrite <- Hre at 2. repeat split; try done.
  intros e' s' He' Hd'.
  destruct (F32.lt s' (F32.of_Z 0)) eqn:Hlt'.
  - apply (F32_lt_ge _ _ (F32.of_Z 0)); [|done..].
    destruct (Hnan e He) as (s & Hs & ?). congruence.
  - apply (Hbest {| Score := s'; Result_Entry := e' |}).
    apply elem_of_candidates. exists e'. split; [done|].
    by apply candidate_passes.
Qed.

Lemma passed_test_is_best_witness :
  exists e s,
    e ∈ entries Examples.cosine_db /\ Entry_ID e = "A"%string /\
    Distance (distanceMetric Examples.cosine_db) (Examples.vec [1; 0]%Z)
      (Vector e) = Some s /\
    forall e' s', e' ∈ entries Examples.cosine_db ->
      Distance (distanceMetric Examples.cosine_db) (Examples.vec [1; 0]%Z)
        (Vector e') = Some s' ->
      F32.ge s s' = true.
Proof.
  apply (passed_test_is_best Examples.embed Examples.cosine_db "A"%string
           "north"%string (Examples.vec [1; 0]%Z)).
  - reflexivity.
  - reflexivity.
  - intros e He.
    repeat (apply elem_of_cons in He as [->|He];
            [eexists; split; [vm_compute; reflexivity|reflexivity]|]).
    by apply elem_of_nil in He.
  - vm_compute. reflexivity.
Defined.
